(** * AI Music Studio: the synthesis and melody engine of [ai_music.py]

    A shallow embedding of the pure core of [src/ai_music.py]: the tone
    renderer [generate_tone] with its inline oscillator and the harmonic
    instrument models, the PCM conversion of [save_wav], the Markov melody
    generator, the emotion melody generator and the note table, followed by
    the percussion renderer and the generation requests behind the buttons
    (without their widgets, files and playback).

    Conventions of the embedding.
    - Python [float] values are read as real numbers ([R]); rounding of the
      binary64 and float32 formats is not modelled, and statements that
      depend on it carry the hypothesis that makes the arithmetic exact.
      [math.pi] is the binary64 constant, not the real number pi.  [int(x)]
      is truncation toward zero, [math.floor] is [Int_part].
    - Python [str] is [string]; a [dict] is a [gmap].
    - The module [random] is an explicit source threaded through the
      generators: a tape of raw draws with a cursor.
    - A raised exception is a [Raise] result. *)

From Stdlib Require Import Reals Machin Lra Lia ZArith Ascii String.
From stdpp Require Import base option list strings gmap.

Local Open Scope string_scope.
Local Open Scope list_scope.

(** ** Results and the random source *)

Inductive exn : Type :=
| IndexError
| ValueError.

Inductive result (A : Type) : Type :=
| Ok (a : A)
| Raise (e : exn).

Arguments Ok {A} a.
Arguments Raise {A} e.

(** The generator state of [random]: [tape k] is the k-th raw draw, [cursor]
    counts the draws made so far. *)
Record Rng : Type := mkRng { tape : nat -> nat; cursor : nat }.

Definition M (A : Type) : Type := Rng -> result (A * Rng).

Definition ret {A} (a : A) : M A := fun g => Ok (a, g).

Definition raise {A} (e : exn) : M A := fun _ => Raise e.

Definition bind {A B} (m : M A) (k : A -> M B) : M B :=
  fun g => match m g with
           | Ok (a, g') => k a g'
           | Raise e => Raise e
           end.

Notation "'let!' x ':=' m 'in' k" := (bind m (fun x => k))
  (at level 10, x name, m at level 100, k at level 200).

(** [random.Random._randbelow(n)]: an index below [n], one draw consumed. *)
Definition randbelow (n : nat) : M nat :=
  fun g => Ok (tape g (cursor g) `mod` n, mkRng (tape g) (S (cursor g))).

(** [random.choice(seq)]: [IndexError] on an empty sequence, otherwise
    [seq[_randbelow(len(seq))]]. *)
Definition choice {A} (seq : list A) : M A :=
  if decide (length seq = 0) then raise IndexError
  else (let! i := randbelow (length seq) in
        match seq !! i with
        | Some x => ret x
        | None => raise IndexError
        end).

(** ** Notes, the Markov chain and the emotion pools *)

Module Melody.

Definition NOTE_FREQ : gmap string R :=
  <["C4" := 261.63%R]> (<["D4" := 293.66%R]> (<["E4" := 329.63%R]>
  (<["F4" := 349.23%R]> (<["G4" := 392.00%R]> (<["A4" := 440.00%R]>
  (<["B4" := 493.88%R]> (<["C5" := 523.25%R]> (<["A3" := 220.00%R]>
  (<["Bb4" := 466.16%R]> (<["Db4" := 277.18%R]> (<["Gb4" := 369.99%R]>
  ∅))))))))))).

Definition training_melody : list string :=
  ["C4"; "D4"; "E4"; "G4"; "A4";
   "A4"; "G4"; "E4"; "D4"; "C4";
   "C4"; "E4"; "G4"; "C5";
   "G4"; "E4"; "D4"; "C4"].

(** [markov.setdefault(curr, []).append(nxt)] for [i] in
    [range(len(melody) - 1)].  Both subscripts are in range for those [i]. *)
Definition build_markov_chain (melody : list string) : gmap string (list string) :=
  foldl (fun markov i =>
           match melody !! i, melody !! (S i) with
           | Some curr, Some nxt =>
               <[curr := default [] (markov !! curr) ++ [nxt]]> markov
           | _, _ => markov
           end)
        ∅ (seq 0 (length melody - 1)).

Definition MARKOV : gmap string (list string) :=
  build_markov_chain training_melody.

(** The body of the [if current in MARKOV: ... else: ...] statement. *)
Definition next_note (current : string) : M string :=
  match MARKOV !! current with
  | Some followers => choice followers
  | None => choice training_melody
  end.

(** The [for _ in range(length)] loop, [n] iterations left. *)
Fixpoint ai_melody_loop (n : nat) (melody : list string) (current : string)
  : M (list string) :=
  match n with
  | O => ret melody
  | S n' =>
      let! current' := next_note current in
      ai_melody_loop n' (melody ++ [current]) current'
  end.

Definition generate_ai_melody (length : Z) : M (list string) :=
  let! current := choice training_melody in
  ai_melody_loop (Z.to_nat length) [] current.

(** [[NOTE_FREQ.get(note, 440.0) for note in melody]] *)
Definition melody_to_frequencies (melody : list string) : list R :=
  map (fun note => default 440.0%R (NOTE_FREQ !! note)) melody.

Definition emotion_patterns : gmap string (list string) :=
  <["happy" := ["C4"; "E4"; "G4"; "C5"; "A4"; "G4"; "E4"]]>
  (<["sad" := ["A3"; "C4"; "D4"; "F4"; "E4"; "D4"; "C4"]]>
  (<["romantic" := ["C4"; "E4"; "G4"; "B4"; "A4"; "G4"; "E4"; "D4"]]>
  (<["suspense" := ["C4"; "Db4"; "E4"; "Gb4"; "A4"; "Bb4"; "C5"]]> ∅))).

(** [emotion_patterns['happy']]: the default handed to [dict.get]. *)
Definition happy_pool : list string :=
  default [] (emotion_patterns !! "happy").

(** The list comprehension [[random.choice(base) for _ in range(length)]]. *)
Fixpoint draw_notes (n : nat) (base : list string) : M (list string) :=
  match n with
  | O => ret []
  | S n' =>
      let! x := choice base in
      let! rest := draw_notes n' base in
      ret (x :: rest)
  end.

Definition generate_emotional_melody (emotion : string) (length : Z)
  : M (list string) :=
  let base := default happy_pool (emotion_patterns !! emotion) in
  draw_notes (Z.to_nat length) base.

(** Invariant of the chain under construction: every recorded follower list
    is non-empty and holds notes of the melody it was built from. *)
Definition followers_ok (melody : list string)
    (markov : gmap string (list string)) : Prop :=
  map_Forall (fun _ followers =>
                followers ≠ [] ∧ Forall (fun v => v ∈ melody) followers)
             markov.

(** A pool is usable when a draw from it cannot fail and the note table
    knows each of its notes. *)
Definition pool_ok (pool : list string) : Prop :=
  pool ≠ [] ∧ Forall (fun n => is_Some (NOTE_FREQ !! n)) pool.

#[global] Instance pool_ok_dec pool : Decision (pool_ok pool).
Proof. unfold pool_ok. apply _. Defined.

End Melody.

(** ** Tone synthesis and PCM conversion *)

Module Synth.

Local Open Scope R_scope.

Definition SAMPLE_RATE : R := 44100.

(** Python's [int(x)] on a float: truncation toward zero. *)
Definition py_int (x : R) : Z :=
  if Rle_dec 0 x then Int_part x else (- Int_part (- x))%Z.

(** [str.lower()].  Only the letters A-Z are mapped; no other character
    lowers to a letter of the four instrument names. *)
Definition lower_ascii (c : ascii) : ascii :=
  let n := nat_of_ascii c in
  if (65 <=? n)%nat && (n <=? 90)%nat then ascii_of_nat (n + 32) else c.

Fixpoint lower (s : string) : string :=
  match s with
  | EmptyString => EmptyString
  | String c s' => String (lower_ascii c) (lower s')
  end.

(** [math.pi]: the binary64 number nearest to pi, 884279719003555 / 2^48
    (printed as 3.141592653589793).  It is below pi by about 1.2e-16. *)
Definition math_pi : R := 884279719003555 / 281474976710656.

Definition piano_wave (freq t : R) : R :=
  (1.0 * sin (2 * math_pi * freq * t)
   + 0.5 * sin (2 * math_pi * freq * 2 * t)
   + 0.25 * sin (2 * math_pi * freq * 3 * t)) * exp (-3 * t).

Definition flute_wave (freq t : R) : R :=
  sin (2 * math_pi * freq * t) * exp (-0.8 * t).

Definition pad_wave (freq t : R) : R :=
  0.6 * sin (2 * math_pi * freq * t)
  + 0.3 * sin (2 * math_pi * 0.5 * freq * t)
  + 0.2 * sin (2 * math_pi * 1.5 * freq * t).

Definition bass_wave (freq t : R) : R :=
  sin (2 * math_pi * (freq * 0.5) * t) * exp (-1.5 * t).

Definition instrument_wave (name : string) (freq t : R) : R :=
  let name := lower name in
  if decide (name = "piano") then piano_wave freq t
  else if decide (name = "flute") then flute_wave freq t
  else if decide (name = "pad") then pad_wave freq t
  else if decide (name = "bass") then bass_wave freq t
  else sin (2 * math_pi * freq * t).

(** The [if waveform == ...] chain in the loop of [generate_tone]; [u] is the
    value [random.uniform(-1.0, 1.0)] returns for this sample. *)
Definition waveform_value (waveform : string) (frequency t u : R) : R :=
  if decide (waveform = "sine") then
    sin (2 * math_pi * frequency * t)
  else if decide (waveform = "square") then
    if Rge_dec (sin (2 * math_pi * frequency * t)) 0 then 1.0 else -1.0
  else if decide (waveform = "saw") then
    2 * (t * frequency - IZR (Int_part (0.5 + t * frequency)))
  else if decide (waveform = "triangle") then
    2 * Rabs (2 * (t * frequency - IZR (Int_part (0.5 + t * frequency)))) - 1
  else if decide (waveform = "noise") then
    u
  else
    0.0.

(** Truth value of the [instrument] argument: [None] and the empty string
    select the waveform branch. *)
Definition truthy (instrument : option string) : option string :=
  match instrument with
  | Some name => if decide (name = "") then None else Some name
  | None => None
  end.

(** One pass of the loop body: the value stored in [audio[i]]. *)
Definition tone_sample (frequency volume : R) (waveform : string)
    (sample_rate : R) (instrument : option string) (uniform : nat -> R)
    (i : nat) : R :=
  let t := INR i / sample_rate in
  let value :=
    match truthy instrument with
    | Some name => instrument_wave name frequency t
    | None => waveform_value waveform frequency t (uniform i)
    end in
  value * volume.

(** [np.zeros(num_samples)] raises [ValueError] on a negative count; the
    loop then fills every index of the buffer.  [uniform k] is the k-th value
    drawn from [random.uniform(-1.0, 1.0)]; sample [i] takes draw [i]. *)
Definition generate_tone (frequency duration volume : R) (waveform : string)
    (sample_rate : R) (instrument : option string) (uniform : nat -> R)
  : result (list R) :=
  let num_samples := py_int (sample_rate * duration) in
  if (num_samples <? 0)%Z then Raise ValueError
  else Ok (map (tone_sample frequency volume waveform sample_rate
                            instrument uniform)
               (seq 0 (Z.to_nat num_samples))).

(** [np.clip(a, lo, hi)] on one element. *)
Definition clip (a lo hi : R) : R := Rmin (Rmax a lo) hi.

(** [.astype(np.int16)] on one element: the fraction is dropped and the
    integer kept in 16 bits, two's complement. *)
Definition astype_int16 (x : R) : Z :=
  ((py_int x + 32768) mod 65536 - 32768)%Z.

(** The frames [save_wav] writes for a floating-point buffer. *)
Definition save_wav_frames (audio : list R) : list Z :=
  map (fun a => astype_int16 (clip a (-1.0) 1.0 * 32767)) audio.





End Synth.

(** ** Percussion *)

Module Beat.

Import Synth.
Local Open Scope R_scope.

(** The percussion path divides by the tempo before anything else, so it can
    also fail with [ZeroDivisionError]; [Builtin] carries the exceptions of
    the calls it makes. *)
Inductive raised : Type :=
| ZeroDivisionError
| Builtin (e : exn).

Inductive outcome (A : Type) : Type :=
| Done (a : A)
| Failed (e : raised).

Arguments Done {A} a.
Arguments Failed {A} e.

(** [np.linspace(start, stop, num, False)]: [num] points [start + i * step]
    with [step = (stop - start) / num]; a negative [num] is a [ValueError]. *)
Definition linspace (start stop : R) (num : Z) : result (list R) :=
  if (num <? 0)%Z then Raise ValueError
  else Ok (map (fun i => INR i * ((stop - start) / IZR num) + start)
               (seq 0 (Z.to_nat num))).

Definition kick_drum_sample (duration sample_rate : R) : result (list R) :=
  match linspace 0 duration (py_int (sample_rate * duration)) with
  | Ok t =>
      Ok (zip_with Rmult (map (fun x => sin (2 * math_pi * 60 * x)) t)
                         (map (fun x => exp (-8 * x)) t))
  | Raise e => Raise e
  end.

(** [np.random.uniform(-1, 1, t.shape)] takes one draw per point: [noise k]
    is the k-th draw of numpy's generator, [cursor] the number of draws made
    before the call.  The new cursor is returned with the samples. *)
Definition snare_drum_sample (duration sample_rate : R) (noise : nat -> R)
    (cursor : nat) : result (list R * nat) :=
  match linspace 0 duration (py_int (sample_rate * duration)) with
  | Ok t =>
      let noise_arr := map (fun i => noise (cursor + i)%nat)
                           (seq 0 (length t)) in
      Ok (zip_with Rmult noise_arr (map (fun x => exp (-20 * x)) t),
          (cursor + length t)%nat)
  | Raise e => Raise e
  end.

(** One pass of the loop of [generate_beat]: the slot [s] for [part]. *)
Definition beat_slot (part : string) (beat_unit : R) (noise : nat -> R)
    (cursor : nat) : result (list R * nat) :=
  if decide (part = "kick") then
    match kick_drum_sample beat_unit SAMPLE_RATE with
    | Ok s => Ok (s, cursor)
    | Raise e => Raise e
    end
  else if decide (part = "snare") then
    snare_drum_sample beat_unit SAMPLE_RATE noise cursor
  else
    let n := py_int (SAMPLE_RATE * beat_unit) in
    if (n <? 0)%Z then Raise ValueError
    else Ok (map (fun _ => 0) (seq 0 (Z.to_nat n)), cursor).

(** The [for part in pattern] loop, [beat_audio] being the buffer so far. *)
Fixpoint beat_loop (pattern : list string) (beat_unit : R)
    (noise : nat -> R) (beat_audio : list R) (cursor : nat)
  : result (list R * nat) :=
  match pattern with
  | [] => Ok (beat_audio, cursor)
  | part :: rest =>
      match beat_slot part beat_unit noise cursor with
      | Ok (s, cursor') =>
          beat_loop rest beat_unit noise (beat_audio ++ s) cursor'
      | Raise e => Raise e
      end
  end.

(** [beat_unit = 60.0 / tempo] is evaluated before the loop. *)
Definition generate_beat (pattern : list string) (tempo : R)
    (noise : nat -> R) (cursor : nat) : outcome (list R * nat) :=
  if Req_dec_T tempo 0 then Failed ZeroDivisionError
  else match beat_loop pattern (60.0 / tempo) noise [] cursor with
       | Ok r => Done r
       | Raise e => Failed (Builtin e)
       end.

End Beat.

(** ** The generation requests behind the buttons *)

Module Studio.

Import Melody Synth.
Local Open Scope R_scope.



(** The loop [for f in freqs: t = generate_tone(f, dur, vol, 'sine',
    SAMPLE_RATE, instrument=instrument); full = np.concatenate([full, t])]
    of [_ai_generate_and_play] and [_play_emotion].  Both pass a non-empty
    instrument name, so no call reaches the noise branch. *)
Fixpoint concatenate_tones (freqs : list R) (note_dur volume : R)
    (instrument : string) (uniform : nat -> R) (full : list R)
  : result (list R) :=
  match freqs with
  | [] => Ok full
  | f :: rest =>
      match generate_tone f note_dur volume "sine" SAMPLE_RATE
                          (Some instrument) uniform with
      | Ok t => concatenate_tones rest note_dur volume instrument uniform
                                  (full ++ t)
      | Raise e => Raise e
      end
  end.

(** Lifting of a computation that does not use [random]. *)
Definition lift {A} (r : result A) : M A :=
  fun g => match r with
           | Ok a => Ok (a, g)
           | Raise e => Raise e
           end.

(** The buffer [_ai_generate_and_play] hands to [save_wav], from the parsed
    length and note duration. *)
Definition ai_generate_and_play (length : Z) (note_dur : R)
    (uniform : nat -> R) : M (list R) :=
  let! melody := generate_ai_melody length in
  let freqs := melody_to_frequencies melody in
  let volume := 0.7 in
  let instrument := "piano" in
  lift (concatenate_tones freqs note_dur volume instrument uniform []).

(** The buffer [_play_emotion] hands to [save_wav]. *)
Definition play_emotion (emotion : string) (uniform : nat -> R)
  : M (list R) :=
  let! melody := generate_emotional_melody emotion 16 in
  let freqs := melody_to_frequencies melody in
  let instrument :=
    if decide (emotion ∈ ["happy"; "romantic"]) then "piano" else "flute" in
  lift (concatenate_tones freqs 0.35 0.75 instrument uniform []).

End Studio.

(** * Properties *)

Import Melody.

(** ** The random source *)

Section RandomSource.
Context {A : Type}.

Lemma choice_ok (xs : list A) (tp : nat -> nat) (c : nat) :
  xs ≠ [] ->
  ∃ x, choice xs (mkRng tp c) = Ok (x, mkRng tp (S c))
       ∧ xs !! (tp c `mod` length xs) = Some x.
Proof.
  intros Hne. unfold choice.
  destruct (decide (length xs = 0)) as [H0|H0].
  - destruct xs; [congruence | discriminate].
  - unfold bind, randbelow; simpl.
    destruct (lookup_lt_is_Some_2 xs (tp c `mod` length xs)) as [x Hx].
    { apply Nat.mod_upper_bound; exact H0. }
    exists x. rewrite Hx. split; reflexivity.
Qed.

Lemma choice_empty (g : Rng) : choice (@nil A) g = Raise IndexError.
Proof. reflexivity. Qed.

Lemma choice_elem (xs : list A) (tp : nat -> nat) (c : nat) :
  xs ≠ [] ->
  ∃ x, choice xs (mkRng tp c) = Ok (x, mkRng tp (S c)) ∧ x ∈ xs.
Proof.
  intros Hne. destruct (choice_ok xs tp c Hne) as (x & Hrun & Hx).
  exists x. split; [exact Hrun|]. eapply list_elem_of_lookup_2; eauto.
Qed.
End RandomSource.

(** ** The Markov chain *)

Example markov_followers_of_G4 :
  MARKOV !! "G4" = Some ["A4"; "E4"; "C5"; "E4"].
Proof. vm_compute. reflexivity. Qed.

Example markov_keys :
  map fst (map_to_list MARKOV) ≡ₚ ["C4"; "D4"; "E4"; "G4"; "A4"; "C5"].
Proof. apply (bool_decide_unpack _). vm_compute. exact I. Qed.

Example ai_melody_on_a_tape :
  generate_ai_melody 5 (mkRng (fun k => 7 * k + 3) 0)
  = Ok (["G4"; "C5"; "G4"; "A4"; "G4"], mkRng (fun k => 7 * k + 3) 6).
Proof. vm_compute. reflexivity. Qed.

Example ai_melody_of_negative_length :
  generate_ai_melody (-2) (mkRng (fun k => k) 0)
  = Ok ([], mkRng (fun k => k) 1).
Proof. vm_compute. reflexivity. Qed.

Example emotional_melody_on_a_tape :
  generate_emotional_melody "sad" 4 (mkRng (fun k => 3 * k + 1) 0)
  = Ok (["C4"; "E4"; "A3"; "F4"], mkRng (fun k => 3 * k + 1) 4).
Proof. vm_compute. reflexivity. Qed.

Example lower_mixed_case : Synth.lower "PiAno" = "piano".
Proof. reflexivity. Qed.

Lemma build_markov_chain_followers (melody : list string) :
  followers_ok melody (build_markov_chain melody).
Proof.
  unfold build_markov_chain.
  generalize (seq 0 (length melody - 1)).
  assert (Hinit : followers_ok melody ∅) by apply map_Forall_empty.
  revert Hinit. generalize (∅ : gmap string (list string)).
  intros m Hm l. revert m Hm.
  induction l as [|i l IH]; intros m Hm; simpl; [exact Hm|].
  apply IH.
  destruct (melody !! i) as [curr|] eqn:Hc; [|exact Hm].
  destruct (melody !! S i) as [nxt|] eqn:Hn; [|exact Hm].
  apply map_Forall_insert_2; [|exact Hm].
  split.
  - intros Habs. apply app_eq_nil in Habs. destruct Habs; discriminate.
  - apply Forall_app. split.
    + destruct (m !! curr) as [vs|] eqn:Hvs; simpl; [|constructor].
      apply (Hm _ _ Hvs).
    + constructor; [|constructor]. eapply list_elem_of_lookup_2; eauto.
Qed.

Lemma training_keys : Forall (fun n => is_Some (MARKOV !! n)) training_melody.
Proof. apply (bool_decide_unpack _). vm_compute. exact I. Qed.

Lemma training_freqs :
  Forall (fun n => is_Some (NOTE_FREQ !! n)) training_melody.
Proof. apply (bool_decide_unpack _). vm_compute. exact I. Qed.

Lemma pools_ok : map_Forall (fun _ => pool_ok) emotion_patterns.
Proof. apply (bool_decide_unpack _). vm_compute. exact I. Qed.

Lemma training_melody_nonempty : training_melody ≠ [].
Proof. discriminate. Qed.

Lemma next_note_ok (current : string) (tp : nat -> nat) (c : nat) :
  ∃ x, next_note current (mkRng tp c) = Ok (x, mkRng tp (S c))
       ∧ x ∈ training_melody.
Proof.
  unfold next_note.
  destruct (MARKOV !! current) as [followers|] eqn:Hk.
  - destruct (build_markov_chain_followers training_melody _ _ Hk)
      as [Hne Hall].
    destruct (choice_elem followers tp c Hne) as (x & Hrun & Hx).
    exists x. split; [exact Hrun|].
    rewrite Forall_forall in Hall. exact (Hall x Hx).
  - exact (choice_elem training_melody tp c training_melody_nonempty).
Qed.

Lemma ai_melody_loop_ok (n : nat) :
  ∀ (acc : list string) (cur : string) (tp : nat -> nat) (c : nat),
    cur ∈ training_melody ->
    ∃ out,
      ai_melody_loop n acc cur (mkRng tp c) = Ok (acc ++ out, mkRng tp (c + n))
      ∧ length out = n
      ∧ Forall (fun x => x ∈ training_melody) out
      ∧ (∀ x, out !! 0 = Some x -> x = cur)
      ∧ (∀ k x y, out !! k = Some x -> out !! S k = Some y ->
           next_note x (mkRng tp (c + k)) = Ok (y, mkRng tp (c + S k))).
Proof.
  induction n as [|n IH]; intros acc cur tp c Hcur.
  - exists []. simpl. unfold ret. rewrite app_nil_r, Nat.add_0_r.
    repeat split; try constructor; intros; discriminate.
  - destruct (next_note_ok cur tp c) as (cur' & Hstep & Hcur').
    destruct (IH (acc ++ [cur]) cur' tp (S c) Hcur')
      as (out & Hrun & Hlen & Hall & Hhd & Htr).
    exists (cur :: out). simpl. unfold bind. rewrite Hstep, Hrun.
    rewrite <- app_assoc. simpl.
    replace (S (c + n)) with (c + S n) by lia.
    split; [reflexivity|]. split; [congruence|].
    split; [constructor; assumption|]. split.
    + intros x Hx. simpl in Hx. congruence.
    + intros [|k] x y Hx Hy; simpl in Hx, Hy.
      * injection Hx as <-. rewrite (Hhd y Hy).
        rewrite Nat.add_0_r. replace (c + 1) with (S c) by lia. exact Hstep.
      * replace (c + S k) with (S c + k) by lia.
        replace (c + S (S k)) with (S c + S k) by lia.
        exact (Htr k x y Hx Hy).
Qed.

Lemma generate_ai_melody_run (L : Z) (tp : nat -> nat) (c : nat) :
  ∃ melody,
    generate_ai_melody L (mkRng tp c)
      = Ok (melody, mkRng tp (c + 1 + Z.to_nat L))
    ∧ length melody = Z.to_nat L
    ∧ Forall (fun x => x ∈ training_melody) melody
    ∧ (∀ x, melody !! 0 = Some x ->
         training_melody !! (tp c `mod` 18) = Some x)
    ∧ (∀ k x y, melody !! k = Some x -> melody !! S k = Some y ->
         next_note x (mkRng tp (c + 1 + k)) = Ok (y, mkRng tp (c + 2 + k))).
Proof.
  destruct (choice_ok training_melody tp c training_melody_nonempty)
    as (cur & Hstart & Hcur).
  assert (Hin : cur ∈ training_melody)
    by (eapply list_elem_of_lookup_2; eauto).
  destruct (ai_melody_loop_ok (Z.to_nat L) [] cur tp (S c) Hin)
    as (out & Hrun & Hlen & Hall & Hhd & Htr).
  exists out. unfold generate_ai_melody, bind. rewrite Hstart, Hrun. simpl.
  replace (c + 1 + Z.to_nat L) with (S (c + Z.to_nat L)) by lia.
  split; [reflexivity|]. split; [exact Hlen|]. split; [exact Hall|]. split.
  - intros x Hx. rewrite (Hhd x Hx). exact Hcur.
  - intros k x y Hx Hy.
    replace (c + 1 + k) with (S c + k) by lia.
    replace (c + 2 + k) with (S c + S k) by lia.
    exact (Htr k x y Hx Hy).
Qed.

(** ** The emotion generator *)

Lemma draw_notes_ok (n : nat) :
  ∀ (base : list string) (tp : nat -> nat) (c : nat),
    base ≠ [] ->
    ∃ out,
      draw_notes n base (mkRng tp c) = Ok (out, mkRng tp (c + n))
      ∧ length out = n
      ∧ (∀ k, k < n ->
           out !! k = base !! (tp (c + k) `mod` length base)).
Proof.
  induction n as [|n IH]; intros base tp c Hne.
  - exists []. simpl. unfold ret. rewrite Nat.add_0_r.
    split; [reflexivity|]. split; [reflexivity|]. intros k Hk. lia.
  - destruct (choice_ok base tp c Hne) as (x & Hx & Hlook).
    destruct (IH base tp (S c) Hne) as (rest & Hrest & Hlen & Hnth).
    exists (x :: rest). simpl. unfold bind, ret. rewrite Hx, Hrest.
    replace (c + S n) with (S c + n) by lia.
    split; [reflexivity|]. split; [simpl; congruence|].
    intros [|k] Hk; simpl.
    + rewrite Nat.add_0_r. symmetry. exact Hlook.
    + replace (c + S k) with (S c + k) by lia. apply Hnth. lia.
Qed.

Lemma draw_notes_elem (n : nat) (base : list string) (tp : nat -> nat)
    (c : nat) (out : list string) (g : Rng) :
  base ≠ [] ->
  draw_notes n base (mkRng tp c) = Ok (out, g) ->
  Forall (fun x => x ∈ base) out.
Proof.
  intros Hne Hrun.
  destruct (draw_notes_ok n base tp c Hne) as (out' & Hrun' & Hlen & Hnth).
  rewrite Hrun' in Hrun. injection Hrun as <- _.
  apply Forall_lookup. intros k x Hk.
  assert (Hlt : k < n).
  { rewrite <- Hlen. eapply lookup_lt_Some; eauto. }
  rewrite (Hnth k Hlt) in Hk. eapply list_elem_of_lookup_2; eauto.
Qed.

Lemma happy_pool_eq :
  emotion_patterns !! "happy" = Some happy_pool
  ∧ happy_pool = ["C4"; "E4"; "G4"; "C5"; "A4"; "G4"; "E4"].
Proof. split; vm_compute; reflexivity. Qed.

(** The pool a label selects is a pool of the table. *)
Lemma selected_pool_ok (emotion : string) :
  pool_ok (default happy_pool (emotion_patterns !! emotion)).
Proof.
  destruct (emotion_patterns !! emotion) as [pool|] eqn:Hp; simpl.
  - exact (pools_ok _ _ Hp).
  - exact (pools_ok _ _ (proj1 happy_pool_eq)).
Qed.

(** ** The note table *)

Lemma melody_to_frequencies_known (melody : list string) :
  Forall (fun n => is_Some (NOTE_FREQ !! n)) melody ->
  Forall2 (fun n f => NOTE_FREQ !! n = Some f)
          melody (melody_to_frequencies melody).
Proof.
  induction 1 as [|n melody [f Hf] _ IH]; simpl; constructor.
  - rewrite Hf. reflexivity.
  - exact IH.
Qed.

Lemma Forall_known_from (pool melody : list string) :
  Forall (fun n => is_Some (NOTE_FREQ !! n)) pool ->
  Forall (fun x => x ∈ pool) melody ->
  Forall (fun n => is_Some (NOTE_FREQ !! n)) melody.
Proof.
  intros Hpool Hall. rewrite Forall_forall in Hpool.
  eapply Forall_impl; [exact Hall|]. intros x Hx. exact (Hpool x Hx).
Qed.

(** ** Statements about the melody generators *)

(** C2, as the specification words it: some note of the training sequence
    has no entry in the Markov model.  The model built from the 18 training
    notes refutes it: no such note exists, and the final note "C4" in
    particular is a key. *)
Lemma training_note_without_followers_refuted :
  ¬ (∃ n, n ∈ training_melody ∧ MARKOV !! n = None)
  ∧ ¬ (∀ n, last training_melody = Some n -> MARKOV !! n = None).
Proof.
  split.
  - intros (n & Hin & Hnone).
    pose proof training_keys as Hall. rewrite Forall_forall in Hall.
    destruct (Hall n Hin) as [followers Hf]. congruence.
  - intros Hlast. specialize (Hlast "C4" eq_refl).
    vm_compute in Hlast. discriminate.
Qed.

(** C2, amended: every note of the training sequence is a key of the Markov
    model with a non-empty follower list; the final note is "C4", which occurs
    three more times before the end and is followed by "D4", "C4" and "E4". *)
Theorem training_note_is_markov_key (n : string) :
  n ∈ training_melody ->
  ∃ followers,
    MARKOV !! n = Some followers
    ∧ followers ≠ []
    ∧ (last training_melody = Some n -> followers = ["D4"; "C4"; "E4"]).
Proof.
  intros Hin.
  pose proof training_keys as Hall. rewrite Forall_forall in Hall.
  destruct (Hall n Hin) as [followers Hf].
  exists followers. split; [exact Hf|]. split.
  - exact (proj1 (build_markov_chain_followers training_melody _ _ Hf)).
  - intros Hlast. injection Hlast as <-.
    vm_compute in Hf. congruence.
Qed.

Lemma training_note_is_markov_key_witness :
  "C4" ∈ training_melody
  ∧ ∃ followers,
      MARKOV !! "C4" = Some followers
      ∧ followers ≠ []
      ∧ (last training_melody = Some "C4" -> followers = ["D4"; "C4"; "E4"]).
Proof.
  split.
  - apply list_elem_of_here.
  - apply (training_note_is_markov_key "C4"). apply list_elem_of_here.
Defined.

(** C3: for every length L >= 1 the Markov generator returns, without
    raising, exactly L notes.  The first note is the training note at the
    index of the first draw; each following note is drawn by [next_note] from
    its predecessor: from the follower list when the predecessor is a key,
    otherwise from the full training sequence. *)
Theorem generate_ai_melody_length (L : Z) (tp : nat -> nat) (c : nat) :
  (1 <= L)%Z ->
  ∃ melody,
    generate_ai_melody L (mkRng tp c)
      = Ok (melody, mkRng tp (c + 1 + Z.to_nat L))
    ∧ Z.of_nat (length melody) = L
    ∧ melody !! 0 = training_melody !! (tp c `mod` length training_melody)
    ∧ (∀ k x y, melody !! k = Some x -> melody !! S k = Some y ->
         next_note x (mkRng tp (c + 1 + k)) = Ok (y, mkRng tp (c + 2 + k)))
    ∧ (∀ current g,
         MARKOV !! current = None ->
         next_note current g = choice training_melody g)
    ∧ (∀ current followers g,
         MARKOV !! current = Some followers ->
         next_note current g = choice followers g).
Proof.
  intros HL.
  destruct (generate_ai_melody_run L tp c)
    as (melody & Hrun & Hlen & _ & Hhd & Htr).
  exists melody. split; [exact Hrun|]. split; [lia|]. split.
  - destruct (melody !! 0) as [x|] eqn:H0.
    + symmetry. exact (Hhd x eq_refl).
    + apply lookup_ge_None in H0. lia.
  - split; [exact Htr|]. split.
    + intros current g Hk. unfold next_note. rewrite Hk. reflexivity.
    + intros current followers g Hk. unfold next_note. rewrite Hk.
      reflexivity.
Qed.

Lemma generate_ai_melody_length_witness :
  (1 <= 4)%Z
  ∧ ∃ melody,
      generate_ai_melody 4 (mkRng (fun k => 7 * k + 3) 0)
        = Ok (melody, mkRng (fun k => 7 * k + 3) (0 + 1 + Z.to_nat 4))
      ∧ Z.of_nat (length melody) = 4%Z.
Proof.
  split; [lia|].
  destruct (generate_ai_melody_length 4 (fun k => 7 * k + 3) 0 ltac:(lia))
    as (melody & Hrun & Hlen & _).
  exists melody. split; assumption.
Defined.

(** C8: for a label of the emotion table every emitted note belongs to that
    label's pool (note k is the pool entry at the index of draw k, the pool
    being the same for every draw), and for a label outside the table the
    generator runs exactly as for "happy". *)
Theorem generate_emotional_melody_pool (emotion : string) (L : Z)
    (tp : nat -> nat) (c : nat) :
  (∀ pool,
     emotion_patterns !! emotion = Some pool ->
     ∃ melody,
       generate_emotional_melody emotion L (mkRng tp c)
         = Ok (melody, mkRng tp (c + Z.to_nat L))
       ∧ length melody = Z.to_nat L
       ∧ (∀ k, k < Z.to_nat L ->
            melody !! k = pool !! (tp (c + k) `mod` length pool))
       ∧ Forall (fun x => x ∈ pool) melody)
  ∧ (emotion_patterns !! emotion = None ->
     generate_emotional_melody emotion L (mkRng tp c)
       = generate_emotional_melody "happy" L (mkRng tp c))
  ∧ emotion_patterns !! "happy"
      = Some ["C4"; "E4"; "G4"; "C5"; "A4"; "G4"; "E4"].
Proof.
  split; [|split].
  - intros pool Hp.
    assert (Hne : pool ≠ []) by exact (proj1 (pools_ok _ _ Hp)).
    destruct (draw_notes_ok (Z.to_nat L) pool tp c Hne)
      as (melody & Hrun & Hlen & Hnth).
    exists melody. unfold generate_emotional_melody. rewrite Hp. simpl.
    split; [exact Hrun|]. split; [exact Hlen|]. split; [exact Hnth|].
    exact (draw_notes_elem _ _ _ _ _ _ Hne Hrun).
  - intros Hnone. unfold generate_emotional_melody.
    rewrite Hnone, (proj1 happy_pool_eq). reflexivity.
  - vm_compute. reflexivity.
Qed.

Lemma generate_emotional_melody_pool_witness :
  emotion_patterns !! "sad"
    = Some ["A3"; "C4"; "D4"; "F4"; "E4"; "D4"; "C4"]
  ∧ (∃ melody,
       generate_emotional_melody "sad" 3 (mkRng (fun k => 5 * k + 2) 0)
         = Ok (melody, mkRng (fun k => 5 * k + 2) (0 + Z.to_nat 3))
       ∧ Forall (fun x => x ∈ ["A3"; "C4"; "D4"; "F4"; "E4"; "D4"; "C4"])
                melody)
  ∧ emotion_patterns !! "angry" = None
  ∧ generate_emotional_melody "angry" 3 (mkRng (fun k => 5 * k + 2) 0)
      = generate_emotional_melody "happy" 3 (mkRng (fun k => 5 * k + 2) 0).
Proof.
  assert (Hsad : emotion_patterns !! "sad"
                 = Some ["A3"; "C4"; "D4"; "F4"; "E4"; "D4"; "C4"])
    by (vm_compute; reflexivity).
  assert (Hangry : emotion_patterns !! "angry" = None)
    by (vm_compute; reflexivity).
  split; [exact Hsad|]. split; [|split; [exact Hangry|]].
  - destruct (generate_emotional_melody_pool "sad" 3 (fun k => 5 * k + 2) 0)
      as (Hin & _).
    destruct (Hin _ Hsad) as (melody & Hrun & _ & _ & Hall).
    exists melody. split; assumption.
  - destruct (generate_emotional_melody_pool "angry" 3 (fun k => 5 * k + 2) 0)
      as (_ & Hout & _).
    exact (Hout Hangry).
Defined.

(** C10: every note of the training sequence and of every emotion pool is a
    key of the note table, so every frequency [melody_to_frequencies] returns
    for the output of either generator is a table entry and the 440.0
    default is not used. *)
Theorem generator_notes_have_frequencies :
  Forall (fun n => is_Some (NOTE_FREQ !! n)) training_melody
  ∧ map_Forall (fun _ pool => Forall (fun n => is_Some (NOTE_FREQ !! n)) pool)
               emotion_patterns
  ∧ (∀ L g melody g',
       generate_ai_melody L g = Ok (melody, g') ->
       Forall2 (fun n f => NOTE_FREQ !! n = Some f)
               melody (melody_to_frequencies melody))
  ∧ (∀ emotion L g melody g',
       generate_emotional_melody emotion L g = Ok (melody, g') ->
       Forall2 (fun n f => NOTE_FREQ !! n = Some f)
               melody (melody_to_frequencies melody)).
Proof.
  split; [exact training_freqs|]. split; [|split].
  - intros e pool Hp. exact (proj2 (pools_ok _ _ Hp)).
  - intros L [tp c] melody g' Hrun.
    destruct (generate_ai_melody_run L tp c) as (out & Hout & _ & Hall & _).
    rewrite Hout in Hrun. injection Hrun as <- _.
    apply melody_to_frequencies_known.
    exact (Forall_known_from _ _ training_freqs Hall).
  - intros emotion L [tp c] melody g' Hrun.
    destruct (selected_pool_ok emotion) as [Hne Hknown].
    apply melody_to_frequencies_known.
    apply (Forall_known_from _ _ Hknown).
    exact (draw_notes_elem _ _ _ _ _ _ Hne Hrun).
Qed.

Lemma generator_notes_have_frequencies_witness :
  ∃ melody g',
    generate_ai_melody 3 (mkRng (fun k => k) 0) = Ok (melody, g')
    ∧ Forall2 (fun n f => NOTE_FREQ !! n = Some f)
              melody (melody_to_frequencies melody).
Proof.
  destruct (generate_ai_melody_run 3 (fun k => k) 0) as (melody & Hrun & _).
  exists melody, (mkRng (fun k => k) (0 + 1 + Z.to_nat 3)).
  split; [exact Hrun|].
  destruct generator_notes_have_frequencies as (_ & _ & Hai & _).
  exact (Hai _ _ _ _ Hrun).
Defined.

(** ** Truncation and the sample count *)

Import Synth.

Section Truncation.
  Local Open Scope R_scope.

Lemma Int_part_bounds (x : R) :
  IZR (Int_part x) <= x < IZR (Int_part x) + 1.
Proof. destruct (base_Int_part x). lra. Qed.

Lemma Int_part_unique (x : R) (z : Z) :
  IZR z <= x < IZR z + 1 -> Int_part x = z.
Proof. intros H. symmetry. apply Int_part_spec. lra. Qed.

Lemma py_int_nonneg (x : R) : 0 <= x -> py_int x = Int_part x.
Proof. intros H. unfold py_int. destruct (Rle_dec 0 x); [reflexivity|lra]. Qed.

Lemma py_int_neg (x : R) : x < 0 -> py_int x = (- Int_part (- x))%Z.
Proof. intros H. unfold py_int. destruct (Rle_dec 0 x); [lra|reflexivity]. Qed.

(** Truncation of a non-negative number is its floor. *)
Lemma py_int_floor (x : R) (z : Z) :
  0 <= x -> IZR z <= x < IZR z + 1 -> py_int x = z.
Proof. intros H0 H. rewrite py_int_nonneg by exact H0. apply Int_part_unique, H. Qed.

(** Truncation of a negative number is its ceiling. *)
Lemma py_int_ceil (x : R) (z : Z) :
  x < 0 -> IZR z - 1 < x <= IZR z -> py_int x = z.
Proof.
  intros H0 H. rewrite py_int_neg by exact H0.
  rewrite (Int_part_unique (- x) (- z)); [lia|].
  rewrite opp_IZR. lra.
Qed.

Lemma py_int_IZR (z : Z) : py_int (IZR z) = z.
Proof.
  destruct (Rle_dec 0 (IZR z)) as [H|H].
  - apply py_int_floor; lra.
  - apply py_int_ceil; lra.
Qed.

(** The truncated value lies between zero and the argument. *)
Lemma py_int_between (x : R) :
  (0 <= x -> 0 <= IZR (py_int x) <= x /\ x < IZR (py_int x) + 1)
  /\ (x < 0 -> x <= IZR (py_int x) <= 0 /\ IZR (py_int x) - 1 < x).
Proof.
  split; intros H.
  - rewrite py_int_nonneg by lra.
    pose proof (Int_part_bounds x) as Hb.
    assert (Hz : (0 <= Int_part x)%Z).
    { apply Z.lt_succ_r, lt_IZR. rewrite succ_IZR. lra. }
    apply IZR_le in Hz. lra.
  - rewrite py_int_neg by lra. rewrite opp_IZR.
    pose proof (Int_part_bounds (- x)) as Hb.
    assert (Hz : (0 <= Int_part (- x))%Z).
    { apply Z.lt_succ_r, lt_IZR. rewrite succ_IZR. lra. }
    apply IZR_le in Hz. lra.
Qed.

Lemma py_int_sign (x : R) : (0 <= py_int x)%Z <-> -1 < x.
Proof.
  destruct (Rle_dec 0 x) as [H|H].
  - destruct (proj1 (py_int_between x) H) as [[H1 _] _].
    split; [lra|]. intros _. apply le_IZR. exact H1.
  - assert (Hx : x < 0) by lra.
    destruct (proj2 (py_int_between x) Hx) as [[H1 H2] H3].
    split.
    + intros Hz. apply IZR_le in Hz. lra.
    + intros Hgt. apply le_IZR.
      assert (Hlt : -1 < IZR (py_int x)) by lra.
      apply lt_IZR in Hlt. apply IZR_le. lia.
Qed.

(** Truncation keeps a number inside a symmetric integer range. *)
Lemma py_int_range (x : R) (b : Z) :
  - IZR b <= x <= IZR b -> (- b <= py_int x <= b)%Z.
Proof.
  intros [Hlo Hhi].
  destruct (Rle_dec 0 x) as [H|H].
  - destruct (proj1 (py_int_between x) H) as [[H1 H2] _].
    split; apply le_IZR; [rewrite opp_IZR|]; lra.
  - assert (Hx : x < 0) by lra.
    destruct (proj2 (py_int_between x) Hx) as [[H1 H2] _].
    split; apply le_IZR; [rewrite opp_IZR|]; lra.
Qed.
End Truncation.

(** ** The tone renderer *)

Section ToneRenderer.
  Local Open Scope R_scope.

Variables (frequency duration volume : R) (waveform : string).
Variables (sample_rate : R) (instrument : option string).
Variable uniform : nat -> R.

Let num_samples : Z := py_int (sample_rate * duration).
Let body : nat -> R :=
  tone_sample frequency volume waveform sample_rate instrument uniform.

Lemma generate_tone_ok :
  -1 < sample_rate * duration ->
  generate_tone frequency duration volume waveform sample_rate instrument
                uniform
  = Ok (map body (seq 0 (Z.to_nat num_samples))).
Proof.
  intros H. apply py_int_sign in H. unfold generate_tone.
  destruct (Z.ltb_spec (py_int (sample_rate * duration)) 0) as [Hlt|_];
    [lia | reflexivity].
Qed.

Lemma generate_tone_raises :
  sample_rate * duration <= -1 ->
  generate_tone frequency duration volume waveform sample_rate instrument
                uniform
  = Raise ValueError.
Proof.
  intros H. unfold generate_tone.
  destruct (Z.ltb_spec (py_int (sample_rate * duration)) 0) as [_|Hge];
    [reflexivity|].
  apply py_int_sign in Hge. lra.
Qed.

Lemma generate_tone_inv (buf : list R) :
  generate_tone frequency duration volume waveform sample_rate instrument
                uniform = Ok buf ->
  (0 <= num_samples)%Z
  /\ buf = map body (seq 0 (Z.to_nat num_samples)).
Proof.
  unfold generate_tone. fold num_samples.
  destruct (Z.ltb_spec num_samples 0) as [Hlt|Hge]; [discriminate|].
  intros Heq. injection Heq as <-. split; [exact Hge | reflexivity].
Qed.


Lemma generate_tone_lookup (buf : list R) (i : nat) :
  generate_tone frequency duration volume waveform sample_rate instrument
                uniform = Ok buf ->
  (Z.of_nat i < num_samples)%Z ->
  buf !! i = Some (body i).
Proof.
  intros H Hi. destruct (generate_tone_inv buf H) as [Hge ->].
  rewrite list_lookup_fmap, lookup_seq_lt by lia. reflexivity.
Qed.

Lemma generate_tone_lookup_inv (buf : list R) (i : nat) (x : R) :
  generate_tone frequency duration volume waveform sample_rate instrument
                uniform = Ok buf ->
  buf !! i = Some x ->
  x = body i.
Proof.
  intros H Hx. destruct (generate_tone_inv buf H) as [Hge ->].
  rewrite list_lookup_fmap in Hx.
  destruct (seq 0 (Z.to_nat num_samples) !! i) as [j|] eqn:Hj;
    [|discriminate].
  apply lookup_seq in Hj. destruct Hj as [-> _].
  simpl in Hx. congruence.
Qed.
End ToneRenderer.

Section Oscillator.
  Local Open Scope R_scope.

Variables frequency t u : R.

Lemma waveform_value_sine :
  waveform_value "sine" frequency t u = sin (2 * math_pi * frequency * t).
Proof. reflexivity. Qed.

Lemma waveform_value_square :
  waveform_value "square" frequency t u
  = if Rge_dec (sin (2 * math_pi * frequency * t)) 0 then 1.0 else -1.0.
Proof. reflexivity. Qed.

Lemma waveform_value_triangle :
  waveform_value "triangle" frequency t u
  = 2 * Rabs (2 * (t * frequency - IZR (Int_part (0.5 + t * frequency))))
    - 1.
Proof. reflexivity. Qed.


(** [math.pi] is below pi, by less than 1e-9. *)
Lemma math_pi_lt_PI : math_pi < PI.
Proof.
  pose proof (PI_2_3_7_ineq 9) as [H _].
  unfold sum_f_R0, tg_alt, PI_2_3_7_tg, Ratan_seq in H. simpl in H.
  unfold math_pi. lra.
Qed.

Lemma PI_near_math_pi : PI < math_pi + 1 / 1000000000.
Proof.
  pose proof (PI_2_3_7_ineq 5) as [_ H].
  unfold sum_f_R0, tg_alt, PI_2_3_7_tg, Ratan_seq in H. simpl in H.
  unfold math_pi. lra.
Qed.

Lemma PI_coarse : 3.14 < PI < 3.15.
Proof.
  pose proof math_pi_lt_PI. pose proof PI_near_math_pi.
  unfold math_pi in *. lra.
Qed.

Lemma sin_two_math_pi_negative : sin (2 * math_pi * 1 * 1) < 0.
Proof.
  pose proof math_pi_lt_PI. pose proof PI_coarse.
  apply sin_lt_0; unfold math_pi in *; lra.
Qed.

Lemma sin_four_math_pi_negative : sin (4 * math_pi) < 0.
Proof.
  pose proof math_pi_lt_PI. pose proof PI_coarse.
  replace (4 * math_pi) with (4 * math_pi - 2 * PI + 2 * INR 1 * PI)
    by (simpl INR; ring).
  rewrite sin_period. apply sin_lt_0; unfold math_pi in *; lra.
Qed.

(** The phase of the sawtooth stays within half a period of zero. *)
Lemma saw_phase_bounds (x : R) :
  -0.5 <= x - IZR (Int_part (0.5 + x)) < 0.5.
Proof. pose proof (Int_part_bounds (0.5 + x)). lra. Qed.
End Oscillator.

(** ** Statements about the tone renderer *)

Section ToneClaims.
  Local Open Scope R_scope.




(** C4, as the specification words it, with the sine of the real angle
    2 pi f t: at frequency 1 and t = 1 that sine is 0, a tie the claim
    resolves to +1, but the oscillator evaluates its sine at 2 * math.pi,
    just short of the full turn, finds it negative and returns -1.  The tone
    of three samples at one sample per second is 1, -1, -1. *)
Lemma square_is_negative_at_a_zero_crossing :
  0 <= 1
  /\ sin (2 * PI * 1 * 1) >= 0
  /\ waveform_value "square" 1 1 0 = -1
  /\ generate_tone 1 3 1 "square" 1 None (fun _ => 0) = Ok [1; -1; -1].
Proof.
  split; [lra|]. split.
  { replace (2 * PI * 1 * 1) with (2 * PI) by ring. rewrite sin_2PI. lra. }
  assert (H0 : waveform_value "square" 1 (INR 0 / 1) 0 = 1).
  { rewrite waveform_value_square.
    replace (2 * math_pi * 1 * (INR 0 / 1)) with 0
      by (simpl INR; unfold Rdiv; ring).
    rewrite sin_0. destruct (Rge_dec 0 0); lra. }
  assert (H1 : waveform_value "square" 1 1 0 = -1).
  { rewrite waveform_value_square.
    pose proof sin_two_math_pi_negative.
    destruct (Rge_dec (sin (2 * math_pi * 1 * 1)) 0); lra. }
  assert (H2 : waveform_value "square" 1 (INR 2 / 1) 0 = -1).
  { rewrite waveform_value_square.
    replace (2 * math_pi * 1 * (INR 2 / 1)) with (4 * math_pi)
      by (simpl INR; field).
    pose proof sin_four_math_pi_negative.
    destruct (Rge_dec (sin (4 * math_pi)) 0); lra. }
  split; [exact H1|].
  rewrite generate_tone_ok by lra.
  assert (Hn : py_int (1 * 3) = 3%Z) by (apply py_int_floor; lra).
  rewrite Hn. change (Z.to_nat 3) with 3%nat. simpl seq. simpl map.
  unfold tone_sample. simpl truthy. cbv iota.
  replace (INR 1 / 1) with 1 by (simpl INR; field).
  rewrite H0, H1, H2. do 2 f_equal; [ring|]. do 2 f_equal; [ring|].
  f_equal. ring.
Qed.

(** C4, amended: for every frequency and time offset the sine, square and
    triangle values lie in [-1, 1]; the square value is exactly 1 when the
    sine the oscillator evaluates, the value of the sine waveform at the
    same frequency and time, is >= 0, and exactly -1 otherwise; it is never
    0. *)
Theorem oscillator_range (waveform : string) (frequency t u : R) :
  0 <= t ->
  waveform = "sine" \/ waveform = "square" \/ waveform = "triangle" ->
  -1 <= waveform_value waveform frequency t u <= 1
  /\ (waveform = "square" ->
      (waveform_value "sine" frequency t u >= 0 ->
       waveform_value waveform frequency t u = 1)
      /\ (waveform_value "sine" frequency t u < 0 ->
          waveform_value waveform frequency t u = -1)
      /\ waveform_value waveform frequency t u <> 0).
Proof.
  intros _ [-> | [-> | ->]].
  - rewrite waveform_value_sine. split; [|discriminate].
    pose proof (SIN_bound (2 * math_pi * frequency * t)). lra.
  - rewrite waveform_value_square, waveform_value_sine.
    destruct (Rge_dec (sin (2 * math_pi * frequency * t)) 0) as [Hs|Hs].
    + split; [lra|]. intros _. split; [intros _; lra|]. split; lra.
    + split; [lra|]. intros _. split; [intros Hge; contradiction|].
      split; [intros _|]; lra.
  - rewrite waveform_value_triangle. split; [|discriminate].
    pose proof (saw_phase_bounds (t * frequency)) as Hp.
    unfold Rabs. destruct (Rcase_abs _); lra.
Qed.

Lemma oscillator_range_witness :
  0 <= 1 / 4
  /\ -1 <= waveform_value "square" 440 (1 / 4) 0 <= 1
  /\ waveform_value "square" 440 (1 / 4) 0 <> 0.
Proof.
  assert (H : 0 <= 1 / 4) by lra.
  split; [exact H|].
  destruct (oscillator_range "square" 440 (1 / 4) 0 H (or_intror (or_introl eq_refl)))
    as (Hrange & Hsq).
  split; [exact Hrange|]. exact (proj2 (proj2 (Hsq eq_refl))).
Defined.

End ToneClaims.

Section SilenceAndVolume.
  Local Open Scope R_scope.


Lemma clip_unit_bounds (a : R) : -1 <= clip a (-1.0) 1.0 <= 1.
Proof.
  unfold clip, Rmin, Rmax.
  repeat (destruct (Rle_dec _ _)); lra.
Qed.

Lemma astype_int16_in_range (x : R) :
  - IZR 32767 <= x <= IZR 32767 ->
  astype_int16 x = py_int x /\ (-32767 <= py_int x <= 32767)%Z.
Proof.
  intros H. apply py_int_range in H. split; [|exact H].
  unfold astype_int16. rewrite Z.mod_small by lia. lia.
Qed.

Lemma save_wav_frame (a : R) :
  astype_int16 (clip a (-1.0) 1.0 * 32767)
    = py_int (clip a (-1.0) 1.0 * 32767)
  /\ (-32767 <= py_int (clip a (-1.0) 1.0 * 32767) <= 32767)%Z.
Proof.
  apply astype_int16_in_range.
  pose proof (clip_unit_bounds a). lra.
Qed.
End SilenceAndVolume.

Section VolumeClaims.
  Local Open Scope R_scope.





End VolumeClaims.

(** ** The 440 Hz reference tone *)

Section ReferenceTone.
Local Open Scope R_scope.

Variable uniform : nat -> R.

Let buffer : list R :=
  map (tone_sample 440 0.5 "sine" SAMPLE_RATE None uniform)
      (seq 0 (Z.to_nat 44100)).

Lemma reference_count : py_int (SAMPLE_RATE * 1) = 44100%Z.
Proof. apply py_int_floor; unfold SAMPLE_RATE; lra. Qed.

Lemma reference_run :
  generate_tone 440 1 0.5 "sine" SAMPLE_RATE None uniform = Ok buffer.
Proof.
  rewrite generate_tone_ok by (unfold SAMPLE_RATE; lra).
  rewrite reference_count. reflexivity.
Qed.

Lemma reference_sample (i : nat) :
  (Z.of_nat i < 44100)%Z ->
  buffer !! i
  = Some (0.5 * sin (2 * math_pi * 440 * (INR i / SAMPLE_RATE))).
Proof.
  intros Hi.
  rewrite (generate_tone_lookup _ _ _ _ _ _ _ _ _ reference_run)
    by (rewrite reference_count; exact Hi).
  unfold tone_sample. simpl truthy. cbv iota.
  rewrite waveform_value_sine, Rmult_comm. reflexivity.
Qed.

(** After 100 samples the angle is between half a turn and a full turn. *)
Lemma reference_sample_100_negative :
  sin (2 * math_pi * 440 * (INR 100 / SAMPLE_RATE)) < 0.
Proof.
  rewrite INR_IZR_INZ. change (Z.of_nat 100) with 100%Z.
  pose proof math_pi_lt_PI. pose proof PI_coarse.
  apply sin_lt_0; unfold SAMPLE_RATE, math_pi in *; lra.
Qed.

Lemma Rabs_sin_le (x : R) : Rabs (sin x) <= Rabs x.
Proof.
  pose proof (SIN_bound x) as Hb. pose proof PI_coarse as Hpi.
  destruct (Rle_dec 1 (Rabs x)) as [Hbig|Hsmall].
  - apply Rle_trans with 1; [apply Rabs_le; lra | exact Hbig].
  - assert (Hx : -1 < x < 1).
    { unfold Rabs in Hsmall. destruct (Rcase_abs x); lra. }
    destruct (Rtotal_order x 0) as [Hneg | [-> | Hpos]].
    + pose proof (sin_lt_x (- x) ltac:(lra)) as H1.
      pose proof (sin_gt_0 (- x) ltac:(lra) ltac:(lra)) as H2.
      rewrite sin_neg in H1, H2.
      rewrite (Rabs_left x) by lra. rewrite (Rabs_left (sin x)) by lra. lra.
    + rewrite sin_0, Rabs_R0. lra.
    + pose proof (sin_lt_x x Hpos) as H1.
      pose proof (sin_gt_0 x Hpos ltac:(lra)) as H2.
      rewrite (Rabs_pos_eq x) by lra. rewrite (Rabs_pos_eq (sin x)) by lra.
      lra.
Qed.

Lemma sin_lipschitz (p q : R) : Rabs (sin p - sin q) <= Rabs (p - q).
Proof.
  rewrite form4, !Rabs_mult.
  pose proof (COS_bound ((p + q) / 2)) as Hc.
  assert (Hcos : Rabs (cos ((p + q) / 2)) <= 1) by (apply Rabs_le; lra).
  pose proof (Rabs_sin_le ((p - q) / 2)) as Hs.
  pose proof (Rabs_pos (sin ((p - q) / 2))) as Hs0.
  pose proof (Rabs_pos (cos ((p + q) / 2))) as Hc0.
  assert (Hhalf : Rabs ((p - q) / 2) = Rabs (p - q) / 2).
  { unfold Rdiv. rewrite Rabs_mult, (Rabs_pos_eq (/ 2)) by lra. reflexivity. }
  rewrite (Rabs_pos_eq 2) by lra. rewrite Hhalf in Hs. nra.
Qed.

(** The sample the buffer holds is within 1e-6 of the sine of period
    44100 / 440 samples scaled by 0.5. *)
Lemma reference_sample_close (i : nat) :
  (Z.of_nat i < 44100)%Z ->
  Rabs (0.5 * sin (2 * math_pi * 440 * (INR i / SAMPLE_RATE))
        - 0.5 * sin (2 * PI * (INR i / (SAMPLE_RATE / 440))))
  <= 1 / 1000000.
Proof.
  intros Hi.
  rewrite <- Rmult_minus_distr_l, Rabs_mult, (Rabs_pos_eq 0.5) by lra.
  pose proof (sin_lipschitz (2 * math_pi * 440 * (INR i / SAMPLE_RATE))
                (2 * PI * (INR i / (SAMPLE_RATE / 440)))) as Hl.
  assert (Hi0 : 0 <= INR i) by apply pos_INR.
  assert (Hi1 : INR i <= 44100).
  { rewrite INR_IZR_INZ. apply IZR_le. lia. }
  pose proof math_pi_lt_PI as Hlo. pose proof PI_near_math_pi as Hhi.
  assert (Hdiff : 2 * math_pi * 440 * (INR i / SAMPLE_RATE)
                  - 2 * PI * (INR i / (SAMPLE_RATE / 440))
                  = - (880 * (PI - math_pi) * (INR i / 44100))).
  { unfold SAMPLE_RATE. field. }
  rewrite Hdiff, Rabs_Ropp in Hl.
  assert (Hfrac : 0 <= INR i / 44100 <= 1).
  { split; [apply Rmult_le_pos; lra|].
    apply Rmult_le_reg_r with 44100; [lra|]. unfold Rdiv.
    rewrite Rmult_assoc, Rinv_l by lra. lra. }
  assert (Hnn : 0 <= 880 * (PI - math_pi) * (INR i / 44100)).
  { apply Rmult_le_pos; [lra | tauto]. }
  rewrite (Rabs_pos_eq _ Hnn) in Hl.
  assert (Hgap : 880 * (PI - math_pi) * (INR i / 44100) <= 880 / 1000000000).
  { apply Rle_trans with (880 * (PI - math_pi) * 1).
    - apply Rmult_le_compat_l; [lra | tauto].
    - lra. }
  lra.
Qed.
End ReferenceTone.

Section ReferenceToneClaims.
Local Open Scope R_scope.

(** C5, as the specification words it: 44,100 samples, sample 0 equal to 0.0
    and sample i equal to 0.5 sin(2 pi i / 100).  The buffer refutes the
    last part at index 100, where a sine of period 100 is back at 0 and the
    buffer holds a negative sample. *)
Lemma sine_440_period_is_not_100 :
  ~ (∃ buf,
       generate_tone 440 1 0.5 "sine" SAMPLE_RATE None (fun _ => 0) = Ok buf
       /\ Z.of_nat (length buf) = 44100%Z
       /\ buf !! 0%nat = Some 0
       /\ ∀ i, (Z.of_nat i < 44100)%Z ->
            buf !! i = Some (0.5 * sin (2 * PI * (INR i / 100)))).
Proof.
  intros (buf & Hrun & _ & _ & Hsine).
  specialize (Hsine 100%nat ltac:(lia)).
  pose proof (generate_tone_lookup_inv _ _ _ _ _ _ _ _ _ _ Hrun Hsine) as Heq.
  unfold tone_sample in Heq. simpl truthy in Heq. cbv iota in Heq.
  rewrite waveform_value_sine in Heq.
  pose proof reference_sample_100_negative as Hneg.
  replace (2 * PI * (INR 100 / 100)) with (0 + 2 * INR 1 * PI) in Heq.
  - rewrite sin_period, sin_0 in Heq. lra.
  - rewrite !INR_IZR_INZ.
    change (Z.of_nat 100) with 100%Z. change (Z.of_nat 1) with 1%Z. field.
Qed.

(** C5, amended: the call returns exactly 44,100 samples, sample 0 is 0.0,
    and the samples trace, to within 1e-6, the sine 0.5 sin(2 pi i / P) whose
    period P = 44100 / 440 lies between 100 and 101 samples; after 100
    samples the tone has not come back to 0: sample 100 is negative. *)
Theorem sine_440_buffer (uniform : nat -> R) :
  ∃ buf,
    generate_tone 440 1 0.5 "sine" SAMPLE_RATE None uniform = Ok buf
    /\ Z.of_nat (length buf) = 44100%Z
    /\ buf !! 0%nat = Some 0
    /\ (∀ i, (Z.of_nat i < 44100)%Z ->
          ∃ x, buf !! i = Some x
               /\ Rabs (x - 0.5 * sin (2 * PI * (INR i / (SAMPLE_RATE / 440))))
                  <= 1 / 1000000)
    /\ 100 < SAMPLE_RATE / 440 < 101
    /\ (∃ x, buf !! 100%nat = Some x /\ x < 0).
Proof.
  eexists. split; [apply reference_run|].
  split; [|split; [|split; [|split]]].
  - rewrite length_map, length_seq. lia.
  - rewrite reference_sample by lia.
    f_equal. replace (2 * math_pi * 440 * (INR 0 / SAMPLE_RATE)) with 0
      by (simpl INR; unfold Rdiv; ring).
    rewrite sin_0. lra.
  - intros i Hi. eexists. split; [apply reference_sample; exact Hi|].
    apply reference_sample_close. exact Hi.
  - unfold SAMPLE_RATE. lra.
  - eexists. split; [apply reference_sample; lia|].
    pose proof reference_sample_100_negative. lra.
Qed.

Lemma sine_440_buffer_witness :
  ∃ buf,
    generate_tone 440 1 0.5 "sine" SAMPLE_RATE None (fun _ => 0) = Ok buf
    /\ (Z.of_nat 25 < 44100)%Z
    /\ ∃ x, buf !! 25%nat = Some x
            /\ Rabs (x - 0.5 * sin (2 * PI * (INR 25 / (SAMPLE_RATE / 440))))
               <= 1 / 1000000.
Proof.
  destruct (sine_440_buffer (fun _ => 0))
    as (buf & Hrun & _ & _ & Hsine & _).
  exists buf. split; [exact Hrun|].
  assert (H : (Z.of_nat 25 < 44100)%Z) by lia.
  split; [exact H|]. exact (Hsine 25%nat H).
Defined.

End ReferenceToneClaims.

(** ** Instrument envelopes *)

Section Envelopes.
  Local Open Scope R_scope.

Lemma scaled_envelope_bound (s e a : R) :
  - a <= s <= a -> 0 < e -> Rabs (s * e) <= a * e.
Proof. intros Hs He. apply Rabs_le. split; nra. Qed.

Lemma instrument_onset (freq : R) :
  piano_wave freq 0 = 0 /\ flute_wave freq 0 = 0 /\ bass_wave freq 0 = 0.
Proof.
  unfold piano_wave, flute_wave, bass_wave.
  rewrite !Rmult_0_r, sin_0. repeat split; ring.
Qed.

(** C6, as the specification words it, at 440 Hz: the magnitude at t = 0 does
    not exceed the magnitude at twice the decay time constant (1/3 s for the
    piano, 1/0.8 s for the flute, 1/1.5 s for the bass), because every
    partial is a sine that starts at 0. *)
Lemma instrument_onset_not_louder :
  ~ (Rabs (piano_wave 440 0) > Rabs (piano_wave 440 (2 * (1 / 3))))
  /\ ~ (Rabs (flute_wave 440 0) > Rabs (flute_wave 440 (2 * (1 / 0.8))))
  /\ ~ (Rabs (bass_wave 440 0) > Rabs (bass_wave 440 (2 * (1 / 1.5)))).
Proof.
  destruct (instrument_onset 440) as (-> & -> & ->).
  rewrite Rabs_R0.
  repeat split; intros H;
    match type of H with _ > Rabs ?x => pose proof (Rabs_pos x) end; lra.
Qed.

(** C6, amended: for the piano, flute and bass models and every frequency the
    sample at t = 0 is exactly 0; at every time the magnitude is bounded by
    the envelope, 1.75 e^(-3t), e^(-0.8t) and e^(-1.5t) respectively; and the
    envelope factor at twice its time constant, e^(-2), is below its value at
    t = 0. *)
Theorem instrument_envelope_decay (freq t : R) :
  (piano_wave freq 0 = 0 /\ flute_wave freq 0 = 0 /\ bass_wave freq 0 = 0)
  /\ Rabs (piano_wave freq t) <= 1.75 * exp (-3 * t)
  /\ Rabs (flute_wave freq t) <= 1 * exp (-0.8 * t)
  /\ Rabs (bass_wave freq t) <= 1 * exp (-1.5 * t)
  /\ exp (-3 * (2 * (1 / 3))) < exp (-3 * 0)
  /\ exp (-0.8 * (2 * (1 / 0.8))) < exp (-0.8 * 0)
  /\ exp (-1.5 * (2 * (1 / 1.5))) < exp (-1.5 * 0).
Proof.
  split; [apply instrument_onset|].
  split; [|split; [|split; [|split; [|split]]]].
  - unfold piano_wave. apply scaled_envelope_bound; [|apply exp_pos].
    pose proof (SIN_bound (2 * math_pi * freq * t)).
    pose proof (SIN_bound (2 * math_pi * freq * 2 * t)).
    pose proof (SIN_bound (2 * math_pi * freq * 3 * t)). lra.
  - unfold flute_wave. apply scaled_envelope_bound; [|apply exp_pos].
    pose proof (SIN_bound (2 * math_pi * freq * t)). lra.
  - unfold bass_wave. apply scaled_envelope_bound; [|apply exp_pos].
    pose proof (SIN_bound (2 * math_pi * (freq * 0.5) * t)). lra.
  - apply exp_increasing. lra.
  - apply exp_increasing. lra.
  - apply exp_increasing. lra.
Qed.

End Envelopes.

(** * Further properties of the code *)

(** ** The Markov chain of an arbitrary melody *)

Section MarkovChain.

Variable melody : list string.

Let step (markov : gmap string (list string)) (i : nat)
  : gmap string (list string) :=
  match melody !! i, melody !! (S i) with
  | Some curr, Some nxt =>
      <[curr := default [] (markov !! curr) ++ [nxt]]> markov
  | _, _ => markov
  end.

Let follows (m : nat) (k v : string) : Prop :=
  ∃ i, i < m ∧ melody !! i = Some k ∧ melody !! S i = Some v.

Lemma markov_step_spec (markov : gmap string (list string)) (m : nat) :
  (∀ k v, (∃ vs, markov !! k = Some vs ∧ v ∈ vs) ↔ follows m k v) ->
  ∀ k v, (∃ vs, step markov m !! k = Some vs ∧ v ∈ vs) ↔ follows (S m) k v.
Proof.
  intros IH k v. unfold step, follows.
  destruct (melody !! m) as [curr|] eqn:Hc;
    [destruct (melody !! S m) as [nxt|] eqn:Hn|].
  - split.
    + intros (vs & Hvs & Hv).
      destruct (decide (curr = k)) as [->|Hne].
      * rewrite lookup_insert_eq in Hvs. injection Hvs as <-.
        apply elem_of_app in Hv. destruct Hv as [Hv|Hv].
        -- destruct (markov !! k) as [vs0|] eqn:Hk; simpl in Hv.
           ++ destruct (proj1 (IH k v)) as (i & Hi & H1 & H2); [eauto|].
              exists i. split; [lia|]. split; assumption.
           ++ inversion Hv.
        -- apply list_elem_of_singleton in Hv. subst v.
           exists m. split; [lia|]. split; assumption.
      * rewrite lookup_insert_ne in Hvs by exact Hne.
        destruct (proj1 (IH k v)) as (i & Hi & H1 & H2); [eauto|].
        exists i. split; [lia|]. split; assumption.
    + intros (i & Hi & H1 & H2).
      destruct (decide (i = m)) as [->|Him].
      * assert (curr = k) by congruence. assert (nxt = v) by congruence.
        subst. rewrite lookup_insert_eq. eexists. split; [reflexivity|].
        apply elem_of_app. right. apply list_elem_of_singleton. reflexivity.
      * destruct (proj2 (IH k v)) as (vs & Hvs & Hv).
        { exists i. split; [lia|]. split; assumption. }
        destruct (decide (curr = k)) as [->|Hne].
        -- rewrite lookup_insert_eq, Hvs. simpl. eexists.
           split; [reflexivity|]. apply elem_of_app. left. exact Hv.
        -- rewrite lookup_insert_ne by exact Hne. eauto.
  - rewrite IH. unfold follows. split.
    + intros (i & Hi & H1 & H2). exists i. split; [lia|]. split; assumption.
    + intros (i & Hi & H1 & H2). exists i. split; [|split; assumption].
      destruct (decide (i = m)) as [->|Him]; [congruence | lia].
  - rewrite IH. unfold follows. split.
    + intros (i & Hi & H1 & H2). exists i. split; [lia|]. split; assumption.
    + intros (i & Hi & H1 & H2). exists i. split; [|split; assumption].
      destruct (decide (i = m)) as [->|Him]; [congruence | lia].
Qed.

Lemma markov_prefix_spec (m : nat) :
  ∀ k v, (∃ vs, foldl step ∅ (seq 0 m) !! k = Some vs ∧ v ∈ vs)
         ↔ follows m k v.
Proof.
  induction m as [|m IH]; intros k v.
  - simpl. unfold follows. split.
    + intros (vs & Hvs & _). rewrite lookup_empty in Hvs. discriminate.
    + intros (i & Hi & _). lia.
  - rewrite seq_S, foldl_app. simpl. apply markov_step_spec. exact IH.
Qed.

Lemma markov_followers_spec (k v : string) :
  (∃ followers, build_markov_chain melody !! k = Some followers
                ∧ v ∈ followers)
  ↔ (∃ i, melody !! i = Some k ∧ melody !! S i = Some v).
Proof.
  unfold build_markov_chain. fold step.
  rewrite (markov_prefix_spec (length melody - 1) k v). unfold follows.
  split.
  - intros (i & _ & H1 & H2). eauto.
  - intros (i & H1 & H2). exists i. split; [|split; assumption].
    apply lookup_lt_Some in H2. lia.
Qed.

(** X1: in the chain built from any melody, [v] is recorded as a follower of
    [k] exactly when [v] comes right after some occurrence of [k]. *)
Theorem markov_followers_are_successors (k v : string) :
  (∃ followers, build_markov_chain melody !! k = Some followers
                ∧ v ∈ followers)
  ↔ (∃ i, melody !! i = Some k ∧ melody !! S i = Some v).
Proof. exact (markov_followers_spec k v). Qed.

(** X2: a note is a key of the chain exactly when it occurs somewhere before
    the last position of the melody; a note that occurs only at the end, or
    not at all, has no entry. *)
Theorem markov_key_iff_not_only_last (k : string) :
  is_Some (build_markov_chain melody !! k)
  ↔ (∃ i, melody !! i = Some k ∧ S i < length melody).
Proof.
  split.
  - intros [followers Hf].
    destruct (build_markov_chain_followers melody k followers Hf) as [Hne _].
    destruct followers as [|v followers]; [congruence|].
    destruct (proj1 (markov_followers_spec k v)) as (i & H1 & H2).
    { exists (v :: followers). split; [exact Hf | apply list_elem_of_here]. }
    exists i. split; [exact H1|]. eapply lookup_lt_Some; eauto.
  - intros (i & H1 & Hlt).
    destruct (lookup_lt_is_Some_2 melody (S i) Hlt) as [v Hv].
    destruct (proj2 (markov_followers_spec k v)) as (vs & Hvs & _);
      eauto.
Qed.

End MarkovChain.

Lemma markov_followers_are_successors_witness :
  ∃ i, ["A"; "B"; "A"; "C"] !! i = Some "A"
       ∧ ["A"; "B"; "A"; "C"] !! S i = Some "C".
Proof.
  apply (markov_followers_are_successors ["A"; "B"; "A"; "C"] "A" "C").
  exists ["B"; "C"]. split.
  - vm_compute. reflexivity.
  - apply list_elem_of_further, list_elem_of_here.
Defined.

Lemma markov_key_iff_not_only_last_witness :
  ~ is_Some (build_markov_chain ["A"; "B"; "A"; "C"] !! "C").
Proof.
  intros H.
  apply (markov_key_iff_not_only_last ["A"; "B"; "A"; "C"] "C") in H.
  destruct H as (i & Hi & Hlt). simpl in Hlt.
  destruct i as [|[|[|i]]]; simpl in Hi; try discriminate; lia.
Defined.

(** ** What the Markov generator can emit *)

Lemma next_note_successor (x y : string) (g g' : Rng) :
  x ∈ training_melody ->
  next_note x g = Ok (y, g') ->
  ∃ i, training_melody !! i = Some x ∧ training_melody !! S i = Some y.
Proof.
  intros Hx Hstep.
  pose proof training_keys as Hkeys. rewrite Forall_forall in Hkeys.
  destruct (Hkeys x Hx) as [followers Hf].
  unfold next_note in Hstep. rewrite Hf in Hstep.
  destruct (build_markov_chain_followers training_melody _ _ Hf) as [Hne _].
  destruct g as [tp c].
  destruct (choice_elem followers tp c Hne) as (y' & Hrun & Hy).
  rewrite Hrun in Hstep. injection Hstep as <- _.
  apply (markov_followers_spec training_melody x y'). eauto.
Qed.

(** X3: whatever the random source, two consecutive notes of a melody
    returned by [generate_ai_melody] are consecutive somewhere in the
    training sequence; the generator invents no transition. *)
Theorem generated_transitions_are_trained (L : Z) (g g' : Rng)
    (melody : list string) (k : nat) (x y : string) :
  generate_ai_melody L g = Ok (melody, g') ->
  melody !! k = Some x ->
  melody !! S k = Some y ->
  ∃ i, training_melody !! i = Some x ∧ training_melody !! S i = Some y.
Proof.
  destruct g as [tp c]. intros Hrun Hx Hy.
  destruct (generate_ai_melody_run L tp c)
    as (out & Hout & _ & Hall & _ & Htr).
  rewrite Hout in Hrun. injection Hrun as <- _.
  rewrite Forall_forall in Hall.
  apply (next_note_successor x y _ _ (Hall x (list_elem_of_lookup_2 _ _ _ Hx))
           (Htr k x y Hx Hy)).
Qed.

Lemma generated_transitions_are_trained_witness :
  ∃ i, training_melody !! i = Some "G4" ∧ training_melody !! S i = Some "C5".
Proof.
  apply (generated_transitions_are_trained 5 (mkRng (fun k => 7 * k + 3) 0)
           (mkRng (fun k => 7 * k + 3) 6)
           ["G4"; "C5"; "G4"; "A4"; "G4"] 0 "G4" "C5").
  - vm_compute. reflexivity.
  - reflexivity.
  - reflexivity.
Defined.

(** ** Frequencies *)

Section Frequencies.
Local Open Scope R_scope.

Lemma note_freq_range :
  map_Forall (fun _ f => 220 <= f <= 523.25) NOTE_FREQ.
Proof.
  unfold NOTE_FREQ.
  repeat (apply map_Forall_insert_2; [lra|]).
  apply map_Forall_empty.
Qed.

(** X4: [melody_to_frequencies] returns one frequency per note, and each of
    them, the 440.0 of an unknown name included, lies between 220 Hz and
    523.25 Hz; a note outside the table gets exactly 440.0. *)
Theorem melody_to_frequencies_range (melody : list string) :
  length (melody_to_frequencies melody) = length melody
  /\ Forall (fun f => 220 <= f <= 523.25) (melody_to_frequencies melody)
  /\ (∀ k note, melody !! k = Some note -> NOTE_FREQ !! note = None ->
        melody_to_frequencies melody !! k = Some 440).
Proof.
  unfold melody_to_frequencies. split; [apply length_map|]. split.
  - apply Forall_forall. intros f Hf.
    apply list_elem_of_fmap in Hf. destruct Hf as (note & -> & _).
    destruct (NOTE_FREQ !! note) as [f|] eqn:Hn; simpl.
    + exact (note_freq_range _ _ Hn).
    + lra.
  - intros k note Hk Hn. rewrite list_lookup_fmap, Hk. simpl.
    rewrite Hn. simpl. f_equal. lra.
Qed.

Lemma melody_to_frequencies_range_witness :
  ["C4"; "H9"] !! 1%nat = Some "H9"
  /\ NOTE_FREQ !! "H9" = None
  /\ melody_to_frequencies ["C4"; "H9"] !! 1%nat = Some 440.
Proof.
  assert (Hn : NOTE_FREQ !! "H9" = None) by (vm_compute; reflexivity).
  split; [reflexivity|]. split; [exact Hn|].
  exact (proj2 (proj2 (melody_to_frequencies_range ["C4"; "H9"]))
           1%nat "H9" eq_refl Hn).
Defined.

End Frequencies.

(** ** Instruments in the tone renderer *)

Section Instruments.
Local Open Scope R_scope.

Lemma lower_ascii_idem (c : ascii) : lower_ascii (lower_ascii c) = lower_ascii c.
Proof. destruct c as [[] [] [] [] [] [] [] []]; reflexivity. Qed.

Lemma lower_idem (s : string) : lower (lower s) = lower s.
Proof.
  induction s as [|c s IH]; simpl; [reflexivity|].
  rewrite lower_ascii_idem, IH. reflexivity.
Qed.

Lemma truthy_some (name : string) : name ≠ "" -> truthy (Some name) = Some name.
Proof.
  intros Hne. unfold truthy. destruct (decide (name = "")); [contradiction|].
  reflexivity.
Qed.

Lemma instrument_wave_lower (name name' : string) (freq t : R) :
  lower name = lower name' ->
  instrument_wave name freq t = instrument_wave name' freq t.
Proof. intros H. unfold instrument_wave. rewrite H. reflexivity. Qed.

Lemma instrument_wave_fallback (name : string) (freq t : R) :
  lower name ∉ ["piano"; "flute"; "pad"; "bass"] ->
  instrument_wave name freq t = sin (2 * math_pi * freq * t).
Proof.
  intros Hn. unfold instrument_wave.
  repeat (destruct (decide _) as [Heq|_];
          [exfalso; apply Hn; rewrite Heq, !elem_of_cons; tauto|]).
  reflexivity.
Qed.

(** X5: a non-empty instrument name takes the place of the waveform: the
    buffer depends neither on the waveform argument nor on the noise draws,
    and names that differ only in the case of their letters give the same
    buffer. *)
Theorem instrument_overrides_waveform (frequency duration volume : R)
    (waveform waveform' : string) (sample_rate : R) (name name' : string)
    (uniform uniform' : nat -> R) :
  name ≠ "" -> name' ≠ "" -> lower name = lower name' ->
  generate_tone frequency duration volume waveform sample_rate (Some name)
                uniform
  = generate_tone frequency duration volume waveform' sample_rate
                  (Some name') uniform'.
Proof.
  intros Hne Hne' Hlow. unfold generate_tone.
  destruct (py_int (sample_rate * duration) <? 0)%Z; [reflexivity|].
  f_equal. apply List.map_ext. intros i. unfold tone_sample.
  rewrite !truthy_some by assumption.
  rewrite (instrument_wave_lower name name') by exact Hlow. reflexivity.
Qed.

Lemma instrument_overrides_waveform_witness :
  generate_tone 261.63 0.3 0.7 "noise" SAMPLE_RATE (Some "Piano")
                (fun k => 1)
  = generate_tone 261.63 0.3 0.7 "sine" SAMPLE_RATE (Some "piano")
                  (fun k => 0).
Proof.
  apply instrument_overrides_waveform.
  - discriminate.
  - discriminate.
  - reflexivity.
Defined.

(** X6: a non-empty instrument name that is none of piano, flute, pad and
    bass (letter case aside) renders exactly the plain sine waveform. *)
Theorem unknown_instrument_is_sine (frequency duration volume : R)
    (waveform : string) (sample_rate : R) (name : string)
    (uniform uniform' : nat -> R) :
  name ≠ "" ->
  lower name ∉ ["piano"; "flute"; "pad"; "bass"] ->
  generate_tone frequency duration volume waveform sample_rate (Some name)
                uniform
  = generate_tone frequency duration volume "sine" sample_rate None uniform'.
Proof.
  intros Hne Hn. unfold generate_tone.
  destruct (py_int (sample_rate * duration) <? 0)%Z; [reflexivity|].
  f_equal. apply List.map_ext. intros i. unfold tone_sample.
  rewrite truthy_some by exact Hne. simpl truthy. cbv iota.
  rewrite instrument_wave_fallback by exact Hn.
  rewrite waveform_value_sine. reflexivity.
Qed.

Lemma unknown_instrument_is_sine_witness :
  generate_tone 440 1 0.5 "square" SAMPLE_RATE (Some "Organ") (fun k => 0)
  = generate_tone 440 1 0.5 "sine" SAMPLE_RATE None (fun k => 0).
Proof.
  apply unknown_instrument_is_sine.
  - discriminate.
  - apply (bool_decide_unpack _). vm_compute. exact I.
Defined.

(** X23: [generate_tone] raises [ValueError] when sample_rate * duration is
    at most -1 (down to -2^62), and returns the empty buffer when the sample
    rate or the duration is 0: no division by the sample rate is then
    evaluated. *)
Theorem generate_tone_failure (frequency duration volume : R)
    (waveform : string) (sample_rate : R) (instrument : option string)
    (uniform : nat -> R) :
  (-4611686018427387904 <= sample_rate * duration <= -1 ->
   generate_tone frequency duration volume waveform sample_rate instrument
                 uniform = Raise ValueError)
  /\ (sample_rate = 0 \/ duration = 0 ->
      generate_tone frequency duration volume waveform sample_rate instrument
                    uniform = Ok []).
Proof.
  split.
  - intros [_ H]. apply generate_tone_raises. exact H.
  - intros Hz.
    assert (Hp : sample_rate * duration = 0) by (destruct Hz as [-> | ->]; ring).
    rewrite generate_tone_ok by lra.
    rewrite Hp. change 0 with (IZR 0). rewrite py_int_IZR. reflexivity.
Qed.

Lemma generate_tone_failure_witness :
  -4611686018427387904 <= SAMPLE_RATE * (-2) <= -1
  /\ generate_tone 440 (-2) 0.5 "sine" SAMPLE_RATE None (fun _ => 0)
     = Raise ValueError.
Proof.
  assert (H : -4611686018427387904 <= SAMPLE_RATE * (-2) <= -1)
    by (unfold SAMPLE_RATE; lra).
  split; [exact H|].
  exact (proj1 (generate_tone_failure 440 (-2) 0.5 "sine" SAMPLE_RATE None
                  (fun _ => 0)) H).
Defined.

End Instruments.

(** ** Amplitude of the synthesized values *)

Section Amplitude.
Local Open Scope R_scope.

Lemma exp_nonpos_le_1 (x : R) : x <= 0 -> exp x <= 1.
Proof.
  intros [Hlt | ->].
  - rewrite <- exp_0. left. apply exp_increasing. exact Hlt.
  - rewrite exp_0. lra.
Qed.

Lemma Rabs_scaled (value volume bound : R) :
  Rabs value <= bound -> Rabs (value * volume) <= bound * Rabs volume.
Proof.
  intros H. rewrite Rabs_mult.
  apply Rmult_le_compat_r; [apply Rabs_pos | exact H].
Qed.

Lemma waveform_value_abs (waveform : string) (frequency t u : R) :
  -1 <= u <= 1 -> Rabs (waveform_value waveform frequency t u) <= 1.
Proof.
  intros Hu. apply Rabs_le. unfold waveform_value.
  pose proof (SIN_bound (2 * math_pi * frequency * t)) as Hs.
  pose proof (saw_phase_bounds (t * frequency)) as Hp.
  repeat (destruct (decide _) as [_|_]); try lra.
  - destruct (Rge_dec _ _); lra.
  - unfold Rabs. destruct (Rcase_abs _); lra.
Qed.

Lemma instrument_wave_abs (name : string) (freq t : R) :
  0 <= t ->
  Rabs (instrument_wave name freq t)
  <= (if decide (lower name = "piano") then 1.75
      else if decide (lower name = "pad") then 1.1 else 1).
Proof.
  intros Ht. unfold instrument_wave.
  pose proof (SIN_bound (2 * math_pi * freq * t)).
  destruct (decide (lower name = "piano")) as [_|_].
  { unfold piano_wave.
    pose proof (SIN_bound (2 * math_pi * freq * 2 * t)).
    pose proof (SIN_bound (2 * math_pi * freq * 3 * t)).
    pose proof (exp_pos (-3 * t)).
    pose proof (exp_nonpos_le_1 (-3 * t) ltac:(lra)).
    apply Rabs_le. split; nra. }
  destruct (decide (lower name = "flute")) as [Hf|_].
  { unfold flute_wave.
    pose proof (exp_pos (-0.8 * t)).
    pose proof (exp_nonpos_le_1 (-0.8 * t) ltac:(lra)).
    rewrite Hf. simpl. apply Rabs_le. split; nra. }
  destruct (decide (lower name = "pad")) as [_|_].
  { unfold pad_wave.
    pose proof (SIN_bound (2 * math_pi * 0.5 * freq * t)).
    pose proof (SIN_bound (2 * math_pi * 1.5 * freq * t)).
    apply Rabs_le. split; lra. }
  destruct (decide (lower name = "bass")) as [_|_].
  { unfold bass_wave.
    pose proof (SIN_bound (2 * math_pi * (freq * 0.5) * t)).
    pose proof (exp_pos (-1.5 * t)).
    pose proof (exp_nonpos_le_1 (-1.5 * t) ltac:(lra)).
    apply Rabs_le. split; nra. }
  apply Rabs_le. lra.
Qed.

Lemma sample_time_nonneg (sample_rate : R) (i : nat) :
  0 < sample_rate -> 0 <= INR i / sample_rate.
Proof.
  intros Hsr. pose proof (pos_INR i).
  apply Rmult_le_pos; [assumption|]. left. apply Rinv_0_lt_compat. exact Hsr.
Qed.

Lemma waveform_samples_bounded (frequency duration volume : R)
    (waveform : string) (sample_rate : R) (instrument : option string)
    (uniform : nat -> R) (buf : list R) :
  instrument = None \/ instrument = Some "" ->
  (∀ k, -1 <= uniform k <= 1) ->
  generate_tone frequency duration volume waveform sample_rate instrument
                uniform = Ok buf ->
  Forall (fun x => Rabs x <= Rabs volume) buf.
Proof.
  intros Hi Hu Hrun. apply Forall_lookup. intros i x Hx.
  rewrite (generate_tone_lookup_inv _ _ _ _ _ _ _ _ _ _ Hrun Hx).
  unfold tone_sample.
  assert (Ht : truthy instrument = None)
    by (destruct Hi as [-> | ->]; reflexivity).
  rewrite Ht.
  replace (Rabs volume) with (1 * Rabs volume) by ring.
  apply Rabs_scaled, waveform_value_abs, Hu.
Qed.





End Amplitude.

(** ** The PCM conversion of [save_wav] *)

Section PcmConversion.
Local Open Scope R_scope.

Lemma py_int_opp (x : R) : py_int (- x) = (- py_int x)%Z.
Proof.
  destruct (Rtotal_order x 0) as [Hlt | [-> | Hgt]].
  - rewrite (py_int_nonneg (- x)) by lra. rewrite (py_int_neg x) by lra. lia.
  - rewrite Ropp_0. change 0 with (IZR 0). rewrite py_int_IZR. reflexivity.
  - rewrite (py_int_neg (- x)) by lra. rewrite Ropp_involutive.
    rewrite (py_int_nonneg x) by lra. reflexivity.
Qed.

Lemma py_int_mono (x y : R) : x <= y -> (py_int x <= py_int y)%Z.
Proof.
  intros Hxy.
  destruct (Rle_dec 0 x) as [Hx|Hx].
  - destruct (proj1 (py_int_between x) Hx) as [[_ H1] _].
    destruct (proj1 (py_int_between y) ltac:(lra)) as [_ H2].
    apply Z.lt_succ_r, lt_IZR. rewrite succ_IZR. lra.
  - assert (Hx' : x < 0) by lra.
    destruct (proj2 (py_int_between x) Hx') as [[_ H1] H1'].
    destruct (Rle_dec 0 y) as [Hy|Hy].
    + destruct (proj1 (py_int_between y) Hy) as [[H2 _] _].
      apply le_IZR. lra.
    + assert (Hy' : y < 0) by lra.
      destruct (proj2 (py_int_between y) Hy') as [[H2 _] _].
      apply Z.lt_succ_r, lt_IZR. rewrite succ_IZR. lra.
Qed.

Lemma clip_unit_opp (a : R) : clip (- a) (-1.0) 1.0 = - clip a (-1.0) 1.0.
Proof. unfold clip, Rmin, Rmax. repeat (destruct (Rle_dec _ _)); lra. Qed.

Lemma clip_unit_mono (a b : R) :
  a <= b -> clip a (-1.0) 1.0 <= clip b (-1.0) 1.0.
Proof. intros H. unfold clip, Rmin, Rmax. repeat (destruct (Rle_dec _ _)); lra. Qed.

Lemma clip_unit_id (a : R) : Rabs a <= 1 -> clip a (-1.0) 1.0 = a.
Proof.
  intros H.
  assert (Ha : -1 <= a <= 1)
    by (unfold Rabs in H; destruct (Rcase_abs a); lra).
  unfold clip, Rmin, Rmax. repeat (destruct (Rle_dec _ _)); lra.
Qed.

Lemma save_wav_frames_lookup (audio : list R) (k : nat) :
  save_wav_frames audio !! k
  = (fun a => py_int (clip a (-1.0) 1.0 * 32767)) <$> audio !! k.
Proof.
  unfold save_wav_frames. rewrite list_lookup_fmap.
  destruct (audio !! k) as [a|]; simpl; [|reflexivity].
  rewrite (proj1 (save_wav_frame a)). reflexivity.
Qed.

Lemma save_wav_frames_eq (audio : list R) :
  save_wav_frames audio
  = map (fun a => py_int (clip a (-1.0) 1.0 * 32767)) audio.
Proof.
  unfold save_wav_frames. apply List.map_ext. intros a.
  exact (proj1 (save_wav_frame a)).
Qed.

(** X10: inverting the polarity of a buffer negates every frame [save_wav]
    writes; the conversion is symmetric about zero and never produces
    -32768. *)
Theorem save_wav_frames_opp (audio : list R) :
  save_wav_frames (map Ropp audio) = map Z.opp (save_wav_frames audio)
  /\ length (save_wav_frames audio) = length audio
  /\ Forall (fun z => (-32767 <= z <= 32767)%Z) (save_wav_frames audio).
Proof.
  rewrite !save_wav_frames_eq. split; [|split].
  - rewrite !List.map_map. apply List.map_ext. intros a.
    rewrite clip_unit_opp, <- py_int_opp. f_equal. ring.
  - apply length_map.
  - apply Forall_forall. intros z Hz.
    apply list_elem_of_fmap in Hz. destruct Hz as (a & -> & _).
    exact (proj2 (save_wav_frame a)).
Qed.

(** X11: the conversion keeps the order of samples: a buffer that is
    pointwise below another is written as frames that are pointwise below
    (or equal to) the other's. *)
Theorem save_wav_frames_mono (audio audio' : list R) :
  Forall2 Rle audio audio' ->
  Forall2 Z.le (save_wav_frames audio) (save_wav_frames audio').
Proof.
  intros H. rewrite !save_wav_frames_eq.
  induction H as [|a b audio audio' Hab _ IH]; simpl; constructor; [|exact IH].
  apply py_int_mono.
  pose proof (clip_unit_mono a b Hab). lra.
Qed.

Lemma save_wav_frames_mono_witness :
  Forall2 Rle [0.2; -3] [0.25; 2]
  /\ Forall2 Z.le (save_wav_frames [0.2; -3]) (save_wav_frames [0.25; 2]).
Proof.
  assert (H : Forall2 Rle [0.2; -3] [0.25; 2]).
  { constructor; [lra|]. constructor; [lra|]. constructor. }
  split; [exact H|]. exact (save_wav_frames_mono _ _ H).
Defined.

(** X12: samples at or beyond full scale are written as 32767 or -32767, and
    a sample equal to 0 is written as 0. *)
Theorem save_wav_frames_saturate (audio : list R) (k : nat) (a : R) :
  audio !! k = Some a ->
  (1 <= a -> save_wav_frames audio !! k = Some 32767%Z)
  /\ (a <= -1 -> save_wav_frames audio !! k = Some (-32767)%Z)
  /\ (a = 0 -> save_wav_frames audio !! k = Some 0%Z).
Proof.
  intros Ha. rewrite save_wav_frames_lookup, Ha. simpl.
  split; [|split]; intros H; f_equal.
  - replace (clip a (-1.0) 1.0 * 32767) with (IZR 32767).
    + apply py_int_IZR.
    + unfold clip, Rmin, Rmax. repeat (destruct (Rle_dec _ _)); lra.
  - replace (clip a (-1.0) 1.0 * 32767) with (IZR (-32767)).
    + apply py_int_IZR.
    + unfold clip, Rmin, Rmax. repeat (destruct (Rle_dec _ _)); lra.
  - replace (clip a (-1.0) 1.0 * 32767) with (IZR 0).
    + apply py_int_IZR.
    + subst a. unfold clip, Rmin, Rmax. repeat (destruct (Rle_dec _ _)); lra.
Qed.

Lemma save_wav_frames_saturate_witness :
  [0.5; 1.3125] !! 1%nat = Some 1.3125
  /\ save_wav_frames [0.5; 1.3125] !! 1%nat = Some 32767%Z.
Proof.
  split; [reflexivity|].
  apply (proj1 (save_wav_frames_saturate [0.5; 1.3125] 1 1.3125 eq_refl)).
  lra.
Defined.

(** X13: a tone rendered without an instrument at a volume of magnitude at
    most 1, with noise draws in [-1, 1], is not clipped: the [np.clip] of
    [save_wav] leaves every sample as it is. *)
Theorem waveform_tone_is_not_clipped (frequency duration volume : R)
    (waveform : string) (sample_rate : R) (uniform : nat -> R)
    (buf : list R) :
  Rabs volume <= 1 ->
  (∀ k, -1 <= uniform k <= 1) ->
  generate_tone frequency duration volume waveform sample_rate None uniform
    = Ok buf ->
  map (fun a => clip a (-1.0) 1.0) buf = buf.
Proof.
  intros Hv Hu Hrun.
  pose proof (waveform_samples_bounded _ _ _ _ _ _ _ _ (or_introl eq_refl)
                Hu Hrun) as Hb.
  apply list_eq. intros k. rewrite list_lookup_fmap.
  destruct (buf !! k) as [x|] eqn:Hx; simpl; [|reflexivity].
  rewrite Forall_lookup in Hb. specialize (Hb k x Hx).
  rewrite clip_unit_id by lra. reflexivity.
Qed.

Lemma waveform_tone_is_not_clipped_witness :
  ∃ buf,
    generate_tone 440 2 0.5 "triangle" SAMPLE_RATE None (fun _ => 0) = Ok buf
    /\ map (fun a => clip a (-1.0) 1.0) buf = buf.
Proof.
  assert (Hd : -1 < SAMPLE_RATE * 2) by (unfold SAMPLE_RATE; lra).
  pose proof (generate_tone_ok 440 2 0.5 "triangle" SAMPLE_RATE None
                (fun _ => 0) Hd) as Hrun.
  eexists. split; [exact Hrun|].
  apply (waveform_tone_is_not_clipped 440 2 0.5 "triangle" SAMPLE_RATE
           (fun _ => 0) _); [| |exact Hrun].
  - unfold Rabs. destruct (Rcase_abs _); lra.
  - intros k. lra.
Defined.

End PcmConversion.

(** ** Buffers made of equal slots *)

Section UniformConcat.
Context {A : Type}.

Lemma length_concat_uniform (n : nat) (ls : list (list A)) :
  Forall (fun s => length s = n) ls ->
  length (concat ls) = length ls * n.
Proof.
  induction 1 as [|s ls Hs _ IH]; simpl; [reflexivity|].
  rewrite length_app, Hs, IH. reflexivity.
Qed.

Lemma lookup_concat_uniform (n : nat) (ls : list (list A)) :
  Forall (fun s => length s = n) ls ->
  ∀ k i s, ls !! k = Some s -> i < n ->
           concat ls !! (k * n + i) = s !! i.
Proof.
  induction 1 as [|s0 ls Hs0 _ IH]; intros k i s Hk Hi.
  - discriminate.
  - destruct k as [|k]; simpl in *.
    + injection Hk as ->. apply lookup_app_l. lia.
    + rewrite lookup_app_r by lia.
      replace (n + k * n + i - length s0) with (k * n + i) by lia.
      apply IH; assumption.
Qed.
End UniformConcat.

(** ** The generation requests *)

Section Requests.
Local Open Scope R_scope.

Import Studio.

Lemma concatenate_tones_ok (note_dur volume : R) (instrument : string)
    (uniform : nat -> R) (freqs : list R) :
  -1 < SAMPLE_RATE * note_dur ->
  ∀ full,
    concatenate_tones freqs note_dur volume instrument uniform full
    = Ok (full ++ concat
            (map (fun f =>
                    map (tone_sample f volume "sine" SAMPLE_RATE
                                     (Some instrument) uniform)
                        (seq 0 (Z.to_nat (py_int (SAMPLE_RATE * note_dur)))))
                 freqs)).
Proof.
  intros Hd. induction freqs as [|f rest IH]; intros full; simpl.
  - rewrite app_nil_r. reflexivity.
  - rewrite (generate_tone_ok f note_dur volume "sine" SAMPLE_RATE
               (Some instrument) uniform Hd).
    rewrite IH, <- app_assoc. reflexivity.
Qed.

Lemma concatenate_tones_raises (note_dur volume : R) (instrument : string)
    (uniform : nat -> R) (f : R) (rest full : list R) :
  SAMPLE_RATE * note_dur <= -1 ->
  concatenate_tones (f :: rest) note_dur volume instrument uniform full
  = Raise ValueError.
Proof.
  intros Hd. simpl.
  rewrite (generate_tone_raises f note_dur volume "sine" SAMPLE_RATE
             (Some instrument) uniform Hd).
  reflexivity.
Qed.

(** The buffer of a melody: the tones of its frequencies, in order. *)
Lemma concatenate_tones_tones (note_dur volume : R) (instrument : string)
    (uniform : nat -> R) (freqs : list R) :
  -1 < SAMPLE_RATE * note_dur ->
  instrument ≠ "" ->
  ∃ tones,
    concatenate_tones freqs note_dur volume instrument uniform []
      = Ok (concat tones)
    /\ Forall2 (fun f tone =>
                  generate_tone f note_dur volume "sine" SAMPLE_RATE
                                (Some instrument) uniform = Ok tone)
               freqs tones
    /\ Forall (fun x =>
                 Rabs x
                 <= (if decide (lower instrument = "piano") then 1.75
                     else if decide (lower instrument = "pad") then 1.1
                     else 1) * Rabs volume) (concat tones).
Proof.
  intros Hd Hne.
  set (slot := fun f : R =>
                 map (tone_sample f volume "sine" SAMPLE_RATE
                                  (Some instrument) uniform)
                     (seq 0 (Z.to_nat (py_int (SAMPLE_RATE * note_dur))))).
  exists (map slot freqs).
  split; [exact (concatenate_tones_ok _ _ _ _ freqs Hd [])|]. split.
  - induction freqs as [|f rest IH]; simpl; constructor; [|exact IH].
    apply generate_tone_ok. exact Hd.
  - apply Forall_concat, Forall_forall. intros s Hs.
    apply list_elem_of_fmap in Hs. destruct Hs as (f & -> & _).
    apply Forall_forall. intros x Hx.
    apply list_elem_of_fmap in Hx. destruct Hx as (i & -> & _).
    unfold tone_sample. rewrite truthy_some by exact Hne.
    apply Rabs_scaled, instrument_wave_abs, sample_time_nonneg.
    unfold SAMPLE_RATE. lra.
Qed.

(** Each tone of a melody of known notes renders the table frequency of its
    note. *)
Lemma tones_of_known_notes (P : string -> Prop)
    (render : R -> result (list R)) (melody : list string) :
  Forall P melody ->
  Forall (fun n => is_Some (NOTE_FREQ !! n)) melody ->
  ∀ tones,
    Forall2 (fun f tone => render f = Ok tone)
            (melody_to_frequencies melody) tones ->
    Forall2 (fun note tone =>
               ∃ f, P note /\ NOTE_FREQ !! note = Some f
                    /\ render f = Ok tone)
            melody tones.
Proof.
  intros HP Hknown. revert HP.
  induction Hknown as [|note melody [f Hf] _ IH]; intros HP tones Htones.
  - simpl in Htones. inversion Htones. constructor.
  - simpl in Htones. inversion Htones as [|f' tone fs tones' Hrun Hrest];
      subst.
    inversion HP as [|? ? Hnote Hmel]; subst.
    constructor; [|exact (IH Hmel _ Hrest)].
    exists f. rewrite Hf in Hrun. simpl in Hrun.
    split; [exact Hnote|]. split; [exact Hf | exact Hrun].
Qed.







Lemma Rabs_of_nonneg_literal (x : R) : 0 <= x -> Rabs x = x.
Proof. intros H. apply Rabs_pos_eq. exact H. Qed.

(** X16: for a note duration between 0 and 60 seconds the AI composer never
    fails: it takes length + 1 draws and returns the tones of the generated
    melody one after the other, tone j being the piano tone
    [generate_tone(f, note_dur, 0.7, 'sine', SAMPLE_RATE, 'piano')] for the
    table frequency f of note j, a training note; every sample has magnitude
    at most 1.75 * 0.7, so [save_wav] may clip. *)
Theorem ai_generate_and_play_buffer (L : Z) (note_dur : R)
    (uniform : nat -> R) (tp : nat -> nat) (c : nat) :
  0 <= note_dur <= 60 ->
  ∃ melody tones,
    generate_ai_melody L (mkRng tp c)
      = Ok (melody, mkRng tp (c + 1 + Z.to_nat L))
    /\ ai_generate_and_play L note_dur uniform (mkRng tp c)
       = Ok (concat tones, mkRng tp (c + 1 + Z.to_nat L))
    /\ Forall2 (fun note tone =>
                  ∃ f, note ∈ training_melody
                       /\ NOTE_FREQ !! note = Some f
                       /\ generate_tone f note_dur 0.7 "sine" SAMPLE_RATE
                                        (Some "piano") uniform = Ok tone)
               melody tones
    /\ Forall (fun x => Rabs x <= 1.75 * 0.7) (concat tones).
Proof.
  intros Hdur.
  assert (Hd : -1 < SAMPLE_RATE * note_dur) by (unfold SAMPLE_RATE; nra).
  destruct (generate_ai_melody_run L tp c)
    as (melody & Hrun & Hlen & Hall & _).
  assert (Hne : "piano" ≠ "") by discriminate.
  destruct (concatenate_tones_tones note_dur 0.7 "piano" uniform
              (melody_to_frequencies melody) Hd Hne)
    as (tones & Hfull & Htones & Hbound).
  exists melody, tones. split; [exact Hrun|]. split.
  { unfold ai_generate_and_play, bind, lift. rewrite Hrun, Hfull.
    reflexivity. }
  split.
  - apply (tones_of_known_notes (fun note => note ∈ training_melody)
             (fun f => generate_tone f note_dur 0.7 "sine" SAMPLE_RATE
                                     (Some "piano") uniform)).
    + exact Hall.
    + exact (Forall_known_from _ _ training_freqs Hall).
    + exact Htones.
  - simpl in Hbound. rewrite (Rabs_of_nonneg_literal 0.7) in Hbound by lra.
    exact Hbound.
Qed.

Lemma ai_generate_and_play_buffer_witness :
  0 <= 0.3 <= 60
  /\ ∃ tones,
       ai_generate_and_play 16 0.3 (fun _ => 0) (mkRng (fun k => k) 0)
         = Ok (concat tones, mkRng (fun k => k) (0 + 1 + Z.to_nat 16))
       /\ Forall (fun x => Rabs x <= 1.75 * 0.7) (concat tones).
Proof.
  assert (Hd : 0 <= 0.3 <= 60) by lra.
  split; [exact Hd|].
  destruct (ai_generate_and_play_buffer 16 0.3 (fun _ => 0) (fun k => k) 0 Hd)
    as (melody & tones & _ & Hrun & _ & Hb).
  exists tones. split; assumption.
Defined.

(** X17: the AI composer with a length below 1 returns the empty buffer
    after one draw, whatever the note duration; with a length of at least 1
    and SAMPLE_RATE * note_dur <= -1 it raises the [ValueError] of the first
    tone. *)
Theorem ai_generate_and_play_edges (L : Z) (note_dur : R)
    (uniform : nat -> R) (tp : nat -> nat) (c : nat) :
  ((L <= 0)%Z ->
   ai_generate_and_play L note_dur uniform (mkRng tp c)
     = Ok ([], mkRng tp (c + 1)))
  /\ ((1 <= L)%Z -> SAMPLE_RATE * note_dur <= -1 ->
      ai_generate_and_play L note_dur uniform (mkRng tp c)
        = Raise ValueError).
Proof.
  destruct (generate_ai_melody_run L tp c)
    as (melody & Hrun & Hlen & _).
  unfold ai_generate_and_play, bind, lift. rewrite Hrun. split.
  - intros HL. destruct melody as [|x melody]; [|simpl in Hlen; lia].
    simpl. replace (Z.to_nat L) with 0%nat by lia.
    rewrite Nat.add_0_r. reflexivity.
  - intros HL Hd. destruct melody as [|x melody]; [simpl in Hlen; lia|].
    simpl melody_to_frequencies.
    rewrite concatenate_tones_raises by exact Hd. reflexivity.
Qed.

Lemma ai_generate_and_play_edges_witness :
  (1 <= 16)%Z
  /\ SAMPLE_RATE * (-0.3) <= -1
  /\ ai_generate_and_play 16 (-0.3) (fun _ => 0) (mkRng (fun k => k) 0)
     = Raise ValueError.
Proof.
  assert (Hd : SAMPLE_RATE * (-0.3) <= -1) by (unfold SAMPLE_RATE; lra).
  split; [lia|]. split; [exact Hd|].
  apply (proj2 (ai_generate_and_play_edges 16 (-0.3) (fun _ => 0)
                  (fun k => k) 0)); [lia | exact Hd].
Defined.

Lemma generate_emotional_melody_run (emotion : string) (L : Z)
    (tp : nat -> nat) (c : nat) :
  ∃ melody,
    generate_emotional_melody emotion L (mkRng tp c)
      = Ok (melody, mkRng tp (c + Z.to_nat L))
    /\ length melody = Z.to_nat L
    /\ Forall (fun n => is_Some (NOTE_FREQ !! n)) melody.
Proof.
  destruct (selected_pool_ok emotion) as [Hne Hknown].
  destruct (draw_notes_ok (Z.to_nat L) _ tp c Hne) as (melody & Hrun & Hlen & _).
  exists melody. split; [exact Hrun|]. split; [exact Hlen|].
  apply (Forall_known_from _ _ Hknown).
  exact (draw_notes_elem _ _ _ _ _ _ Hne Hrun).
Qed.

(** X18: every emotion request succeeds after 16 draws and returns the 16
    tones of the drawn melody one after the other, tone j being
    [generate_tone(f, 0.35, 0.75, 'sine', SAMPLE_RATE, instrument)] for the
    table frequency f of note j, where the instrument is the piano for happy
    and romantic and the flute for every other label.  Flute requests stay
    within 0.75 in magnitude and are not clipped by [save_wav]; piano
    requests stay within 1.75 * 0.75. *)
Theorem play_emotion_buffer (emotion : string) (uniform : nat -> R)
    (tp : nat -> nat) (c : nat) :
  ∃ melody tones,
    generate_emotional_melody emotion 16 (mkRng tp c)
      = Ok (melody, mkRng tp (c + 16))
    /\ length melody = 16%nat
    /\ play_emotion emotion uniform (mkRng tp c)
       = Ok (concat tones, mkRng tp (c + 16))
    /\ Forall2 (fun note tone =>
                  ∃ f, NOTE_FREQ !! note = Some f
                       /\ generate_tone f 0.35 0.75 "sine" SAMPLE_RATE
                            (Some (if decide (emotion ∈ ["happy"; "romantic"])
                                   then "piano" else "flute"))
                            uniform = Ok tone)
               melody tones
    /\ (emotion ∈ ["happy"; "romantic"] ->
        Forall (fun x => Rabs x <= 1.75 * 0.75) (concat tones))
    /\ (emotion ∉ ["happy"; "romantic"] ->
        Forall (fun x => Rabs x <= 0.75) (concat tones)
        /\ map (fun a => clip a (-1.0) 1.0) (concat tones) = concat tones).
Proof.
  assert (Hd : -1 < SAMPLE_RATE * 0.35) by (unfold SAMPLE_RATE; lra).
  destruct (generate_emotional_melody_run emotion 16 tp c)
    as (melody & Hrun & Hlen & Hknown).
  change (Z.to_nat 16) with 16%nat in Hrun, Hlen.
  assert (Hne : (if decide (emotion ∈ ["happy"; "romantic"])
                 then "piano" else "flute") ≠ "")
    by (destruct (decide _); discriminate).
  destruct (concatenate_tones_tones 0.35 0.75 _ uniform
              (melody_to_frequencies melody) Hd Hne)
    as (tones & Hfull & Htones & Hbound).
  exists melody, tones. split; [exact Hrun|]. split; [exact Hlen|]. split.
  { unfold play_emotion, bind, lift. rewrite Hrun, Hfull. reflexivity. }
  split.
  { pose proof (tones_of_known_notes (fun _ => True)
                  (fun f => generate_tone f 0.35 0.75 "sine" SAMPLE_RATE
                              (Some (if decide (emotion ∈ ["happy"; "romantic"])
                                     then "piano" else "flute")) uniform)
                  melody (Forall_true _ _ (fun _ => I)) Hknown tones Htones)
      as Hall.
    eapply Forall2_impl; [exact Hall|].
    intros note tone (f & _ & Hf & Hgen). exists f. split; assumption. }
  rewrite (Rabs_of_nonneg_literal 0.75) in Hbound by lra.
  destruct (decide (emotion ∈ ["happy"; "romantic"])) as [Hin|Hout].
  - split; [|intros H; contradiction]. intros _. exact Hbound.
  - split; [intros H; contradiction|]. intros _.
    assert (Hb : Forall (fun x => Rabs x <= 0.75) (concat tones)).
    { eapply Forall_impl; [exact Hbound|]. intros x Hx. simpl in Hx. lra. }
    split; [exact Hb|].
    apply list_eq. intros k. rewrite list_lookup_fmap.
    destruct (concat tones !! k) as [x|] eqn:Hx; simpl; [|reflexivity].
    rewrite Forall_lookup in Hb. specialize (Hb k x Hx). simpl in Hb.
    rewrite clip_unit_id by lra. reflexivity.
Qed.

Lemma play_emotion_buffer_witness :
  ("sad" ∉ ["happy"; "romantic"])
  /\ ∃ tones,
       play_emotion "sad" (fun _ => 0) (mkRng (fun k => k) 0)
         = Ok (concat tones, mkRng (fun k => k) (0 + 16))
       /\ Forall (fun x => Rabs x <= 0.75) (concat tones).
Proof.
  assert (Hout : "sad" ∉ ["happy"; "romantic"])
    by (apply (bool_decide_unpack _); vm_compute; exact I).
  split; [exact Hout|].
  destruct (play_emotion_buffer "sad" (fun _ => 0) (fun k => k) 0)
    as (melody & tones & _ & _ & Hrun & _ & _ & Hflute).
  exists tones. split; [exact Hrun|]. exact (proj1 (Hflute Hout)).
Defined.

End Requests.

(** ** Percussion *)

Section ZipWith.
Context {A B C D : Type}.

Lemma zip_with_fmap_same (f : B -> C -> D) (g : A -> B) (h : A -> C)
    (l : list A) :
  zip_with f (map g l) (map h l) = map (fun x => f (g x) (h x)) l.
Proof. induction l as [|x l IH]; simpl; [reflexivity|]. rewrite IH. reflexivity. Qed.
End ZipWith.

Section BeatSlots.
Local Open Scope R_scope.

Import Beat.

Variable beat_unit : R.
Variable noise : nat -> R.

Let n : Z := py_int (SAMPLE_RATE * beat_unit).
Let point (i : nat) : R := INR i * ((beat_unit - 0) / IZR n) + 0.
Let kick_at (i : nat) : R :=
  sin (2 * math_pi * 60 * point i) * exp (-8 * point i).
Let snare_at (cursor i : nat) : R :=
  noise (cursor + i) * exp (-20 * point i).

Lemma linspace_unit :
  (0 <= n)%Z ->
  linspace 0 beat_unit n = Ok (map point (seq 0 (Z.to_nat n))).
Proof.
  intros Hn. unfold linspace.
  destruct (Z.ltb_spec n 0) as [Hlt|_]; [lia | reflexivity].
Qed.

Lemma kick_drum_sample_ok :
  (0 <= n)%Z ->
  kick_drum_sample beat_unit SAMPLE_RATE
  = Ok (map kick_at (seq 0 (Z.to_nat n))).
Proof.
  intros Hn. unfold kick_drum_sample. fold n.
  rewrite linspace_unit by exact Hn.
  rewrite zip_with_fmap_same, List.map_map. reflexivity.
Qed.

Lemma snare_drum_sample_ok (cursor : nat) :
  (0 <= n)%Z ->
  snare_drum_sample beat_unit SAMPLE_RATE noise cursor
  = Ok (map (snare_at cursor) (seq 0 (Z.to_nat n)),
        (cursor + Z.to_nat n)%nat).
Proof.
  intros Hn. unfold snare_drum_sample. fold n.
  rewrite linspace_unit by exact Hn.
  rewrite length_map, length_seq.
  rewrite (List.map_map point), zip_with_fmap_same. reflexivity.
Qed.

Lemma drum_raises (cursor : nat) :
  (n < 0)%Z ->
  kick_drum_sample beat_unit SAMPLE_RATE = Raise ValueError
  /\ snare_drum_sample beat_unit SAMPLE_RATE noise cursor = Raise ValueError.
Proof.
  intros Hn. unfold kick_drum_sample, snare_drum_sample, linspace. fold n.
  destruct (Z.ltb_spec n 0) as [_|Hge]; [split; reflexivity | lia].
Qed.

Lemma beat_slot_raises (part : string) (cursor : nat) :
  (n < 0)%Z -> beat_slot part beat_unit noise cursor = Raise ValueError.
Proof.
  intros Hn. unfold beat_slot. fold n.
  destruct (drum_raises cursor Hn) as [-> ->].
  destruct (Z.ltb_spec n 0) as [_|Hge]; [|lia].
  repeat (destruct (decide _)); reflexivity.
Qed.

Lemma point_nonneg (i : nat) :
  0 < beat_unit -> (i < Z.to_nat n)%nat -> 0 <= point i.
Proof.
  intros Hu Hi. unfold point.
  assert (Hn : 0 < IZR n) by (apply IZR_lt; lia).
  pose proof (pos_INR i) as Hpos.
  assert (Hq : 0 < (beat_unit - 0) / IZR n).
  { apply Rdiv_lt_0_compat; lra. }
  nra.
Qed.

(** What one slot holds. *)
Lemma beat_slot_ok (part : string) (cursor : nat) :
  (0 <= n)%Z ->
  ∃ s,
    beat_slot part beat_unit noise cursor
    = Ok (s, if decide (part = "snare") then (cursor + Z.to_nat n)%nat
             else cursor)
    /\ length s = Z.to_nat n
    /\ (part = "kick" -> s = map kick_at (seq 0 (Z.to_nat n)))
    /\ (part <> "kick" -> part <> "snare" -> Forall (fun x => x = 0) s)
    /\ (0 < beat_unit -> (∀ k, -1 <= noise k <= 1) ->
        Forall (fun x => Rabs x <= 1) s).
Proof.
  intros Hn. unfold beat_slot. fold n.
  destruct (decide (part = "kick")) as [->|Hk].
  - rewrite kick_drum_sample_ok by exact Hn.
    eexists. split; [reflexivity|].
    split; [rewrite length_map, length_seq; reflexivity|].
    split; [reflexivity|]. split; [congruence|].
    intros Hu _. apply Forall_forall. intros x Hx.
    apply list_elem_of_fmap in Hx. destruct Hx as (i & -> & Hi).
    apply elem_of_seq in Hi.
    pose proof (point_nonneg i Hu ltac:(lia)) as Ht.
    unfold kick_at.
    pose proof (SIN_bound (2 * math_pi * 60 * point i)).
    pose proof (exp_pos (-8 * point i)).
    pose proof (exp_nonpos_le_1 (-8 * point i) ltac:(lra)).
    apply Rabs_le. split; nra.
  - destruct (decide (part = "snare")) as [->|Hs].
    + rewrite snare_drum_sample_ok by exact Hn.
      eexists. split; [reflexivity|].
      split; [rewrite length_map, length_seq; reflexivity|].
      split; [discriminate|]. split; [congruence|].
      intros Hu Hnoise. apply Forall_forall. intros x Hx.
      apply list_elem_of_fmap in Hx. destruct Hx as (i & -> & Hi).
      apply elem_of_seq in Hi.
      pose proof (point_nonneg i Hu ltac:(lia)) as Ht.
      unfold snare_at.
      pose proof (Hnoise (cursor + i)%nat).
      pose proof (exp_pos (-20 * point i)).
      pose proof (exp_nonpos_le_1 (-20 * point i) ltac:(lra)).
      apply Rabs_le. split; nra.
    + destruct (Z.ltb_spec n 0) as [Hlt|_]; [lia|].
      eexists. split; [reflexivity|].
      split; [rewrite length_map, length_seq; reflexivity|].
      split; [congruence|].
      assert (Hz : Forall (fun x : R => x = 0)
                     (map (fun _ : nat => 0) (seq 0 (Z.to_nat n)))).
      { apply Forall_forall. intros x Hx.
        apply list_elem_of_fmap in Hx. destruct Hx as (i & -> & _).
        reflexivity. }
      split; [intros _ _; exact Hz|].
      intros _ _. eapply Forall_impl; [exact Hz|].
      intros x ->. rewrite Rabs_R0. lra.
Qed.

End BeatSlots.

Section BeatLoop.
Local Open Scope R_scope.

Import Beat.

Variable beat_unit : R.
Variable noise : nat -> R.

Let n : Z := py_int (SAMPLE_RATE * beat_unit).
Let kick_slot : list R :=
  map (fun i : nat =>
         sin (2 * math_pi * 60 * (INR i * ((beat_unit - 0) / IZR n) + 0))
         * exp (-8 * (INR i * ((beat_unit - 0) / IZR n) + 0)))
      (seq 0 (Z.to_nat n)).
Let slot_ok (part : string) (s : list R) : Prop :=
  length s = Z.to_nat n
  /\ (part = "kick" -> s = kick_slot)
  /\ (part <> "kick" -> part <> "snare" -> Forall (fun x => x = 0) s)
  /\ (0 < beat_unit -> (∀ k, -1 <= noise k <= 1) ->
      Forall (fun x => Rabs x <= 1) s).
Let snares (pattern : list string) : nat :=
  length (filter (fun part => part = "snare") pattern).

Lemma beat_loop_ok (pattern : list string) :
  (0 <= n)%Z ->
  ∀ (beat_audio : list R) (cursor : nat),
  ∃ slots,
    beat_loop pattern beat_unit noise beat_audio cursor
    = Ok (beat_audio ++ concat slots,
          (cursor + Z.to_nat n * snares pattern)%nat)
    /\ Forall2 slot_ok pattern slots.
Proof.
  intros Hn. induction pattern as [|part rest IH]; intros beat_audio cursor.
  - exists []. simpl. rewrite app_nil_r. unfold snares. simpl.
    rewrite Nat.mul_0_r, Nat.add_0_r. split; [reflexivity | constructor].
  - destruct (beat_slot_ok beat_unit noise part cursor Hn)
      as (s & Hslot & Hs).
    fold n in Hslot, Hs.
    destruct (IH (beat_audio ++ s)
                 (if decide (part = "snare")
                  then (cursor + Z.to_nat n)%nat else cursor))
      as (slots & Hrun & Hall).
    exists (s :: slots). simpl. rewrite Hslot, Hrun.
    split; [|constructor; [exact Hs | exact Hall]].
    rewrite <- app_assoc. do 2 f_equal.
    unfold snares. rewrite filter_cons.
    destruct (decide (part = "snare")); simpl; lia.
Qed.

Lemma beat_loop_raises (part : string) (rest : list string)
    (beat_audio : list R) (cursor : nat) :
  (n < 0)%Z ->
  beat_loop (part :: rest) beat_unit noise beat_audio cursor
  = Raise ValueError.
Proof.
  intros Hn. simpl.
  rewrite (beat_slot_raises beat_unit noise part cursor Hn). reflexivity.
Qed.

Lemma beat_loop_acc (pattern : list string) :
  ∀ (beat_audio : list R) (cursor : nat),
    beat_loop pattern beat_unit noise beat_audio cursor
    = match beat_loop pattern beat_unit noise [] cursor with
      | Ok (out, cursor') => Ok (beat_audio ++ out, cursor')
      | Raise e => Raise e
      end.
Proof.
  induction pattern as [|part rest IH]; intros beat_audio cursor; simpl.
  - rewrite app_nil_r. reflexivity.
  - destruct (beat_slot part beat_unit noise cursor) as [[s c']|e];
      [|reflexivity].
    rewrite (IH (beat_audio ++ s)), (IH s).
    destruct (beat_loop rest beat_unit noise [] c') as [[out c'']|e];
      [|reflexivity].
    rewrite app_assoc. reflexivity.
Qed.

Lemma beat_loop_app (p1 p2 : list string) :
  ∀ (beat_audio : list R) (cursor : nat),
    beat_loop (p1 ++ p2) beat_unit noise beat_audio cursor
    = match beat_loop p1 beat_unit noise beat_audio cursor with
      | Ok (out, cursor') => beat_loop p2 beat_unit noise out cursor'
      | Raise e => Raise e
      end.
Proof.
  induction p1 as [|part rest IH]; intros beat_audio cursor; simpl.
  - reflexivity.
  - destruct (beat_slot part beat_unit noise cursor) as [[s c']|e];
      [|reflexivity].
    apply IH.
Qed.

End BeatLoop.

Section BeatClaims.
Local Open Scope R_scope.

Import Beat.

Lemma generate_beat_unfold (pattern : list string) (tempo : R)
    (noise : nat -> R) (cursor : nat) :
  tempo <> 0 ->
  generate_beat pattern tempo noise cursor
  = match beat_loop pattern (60 / tempo) noise [] cursor with
    | Ok r => Done r
    | Raise e => Failed (Builtin e)
    end.
Proof.
  intros Ht. unfold generate_beat.
  destruct (Req_dec_T tempo 0) as [H0|_]; [contradiction|].
  replace 60.0 with 60 by lra. reflexivity.
Qed.

Lemma Forall2_slot_lengths {A B} (P : A -> list B -> Prop) (N : nat)
    (l : list A) (slots : list (list B)) :
  Forall2 (fun a s => length s = N /\ P a s) l slots ->
  Forall (fun s => length s = N) slots.
Proof. induction 1 as [|a s l slots [Hs _] _ IH]; constructor; assumption. Qed.

Lemma positive_tempo_count (tempo : R) :
  0 < tempo -> (0 <= py_int (SAMPLE_RATE * (60 / tempo)))%Z.
Proof.
  intros Ht. apply py_int_sign.
  assert (0 < 60 / tempo) by (apply Rdiv_lt_0_compat; lra).
  unfold SAMPLE_RATE. nra.
Qed.

Lemma generate_beat_run (pattern : list string) (tempo : R)
    (noise : nat -> R) (cursor : nat) :
  0 < tempo ->
  ∃ slots,
    generate_beat pattern tempo noise cursor
    = Done (concat slots,
            (cursor
             + Z.to_nat (py_int (SAMPLE_RATE * (60 / tempo)))
               * length (filter (fun part => part = "snare") pattern))%nat)
    /\ length slots = length pattern
    /\ Forall (fun s => length s
                        = Z.to_nat (py_int (SAMPLE_RATE * (60 / tempo))))
              slots
    /\ ((∀ k, -1 <= noise k <= 1) ->
        Forall (fun x => Rabs x <= 1) (concat slots)).
Proof.
  intros Ht.
  assert (Hu : 0 < 60 / tempo) by (apply Rdiv_lt_0_compat; lra).
  destruct (beat_loop_ok (60 / tempo) noise pattern
              (positive_tempo_count tempo Ht) [] cursor)
    as (slots & Hrun & Hall).
  exists slots.
  rewrite generate_beat_unfold by lra. rewrite Hrun. simpl.
  split; [reflexivity|]. split.
  { symmetry. exact (Forall2_length _ _ _ Hall). }
  split.
  { exact (Forall2_slot_lengths _ _ _ _ Hall). }
  intros Hnoise. apply Forall_concat.
  clear Hrun. induction Hall as [|part s l slots' Hs _ IH];
    constructor; [|exact IH].
  destruct Hs as (_ & _ & _ & Hbound). exact (Hbound Hu Hnoise).
Qed.

(** X19: for a tempo of at least 1 beat per minute [generate_beat] never
    fails: the buffer is made of one slot per label, all slots have the same
    number N of samples, each snare takes N noise draws and the other labels
    none, and with draws in [-1, 1] every sample is within [-1, 1], so the
    [np.clip] of [save_wav] leaves the beat as it is. *)
Theorem generate_beat_length (pattern : list string) (tempo : R)
    (noise : nat -> R) (cursor : nat) :
  1 <= tempo ->
  ∃ (N : nat) (slots : list (list R)),
    generate_beat pattern tempo noise cursor
    = Done (concat slots,
            (cursor
             + N * length (filter (fun part => part = "snare") pattern))%nat)
    /\ length slots = length pattern
    /\ Forall (fun s => length s = N) slots
    /\ length (concat slots) = (length pattern * N)%nat
    /\ ((∀ k, -1 <= noise k <= 1) ->
        Forall (fun x => Rabs x <= 1) (concat slots)
        /\ map (fun a => clip a (-1.0) 1.0) (concat slots) = concat slots).
Proof.
  intros Ht.
  destruct (generate_beat_run pattern tempo noise cursor ltac:(lra))
    as (slots & Hrun & Hlen & Hall & Hbound).
  exists (Z.to_nat (py_int (SAMPLE_RATE * (60 / tempo)))), slots.
  split; [exact Hrun|]. split; [exact Hlen|]. split; [exact Hall|]. split.
  - rewrite (length_concat_uniform _ _ Hall), Hlen. reflexivity.
  - intros Hnoise. specialize (Hbound Hnoise). split; [exact Hbound|].
    apply list_eq. intros k. rewrite list_lookup_fmap.
    destruct (concat slots !! k) as [x|] eqn:Hx; simpl; [|reflexivity].
    rewrite Forall_lookup in Hbound.
    rewrite clip_unit_id by exact (Hbound k x Hx). reflexivity.
Qed.

Lemma generate_beat_length_witness :
  1 <= 120
  /\ ∃ (N : nat) (slots : list (list R)),
       generate_beat ["kick"; "snare"] 120 (fun _ => 0) 0
       = Done (concat slots,
               (0 + N * length (filter (fun part => part = "snare")
                                       ["kick"; "snare"]))%nat)
       /\ length (concat slots) = (length ["kick"; "snare"] * N)%nat.
Proof.
  assert (Ht : 1 <= 120) by lra.
  split; [exact Ht|].
  destruct (generate_beat_length ["kick"; "snare"] 120 (fun _ => 0) 0 Ht)
    as (N & slots & Hrun & _ & _ & Hlen & _).
  exists N, slots. split; assumption.
Defined.

(** X20: in the buffer of a beat at a positive tempo, with N samples per
    slot, slot k renders the label at position k of the pattern: it holds
    only zeros for a label that is neither kick nor snare; a kick slot starts
    with the sample 0.0 and holds the same samples as every other kick slot
    of the buffer. *)
Theorem generate_beat_slots (pattern : list string) (tempo : R)
    (noise : nat -> R) (cursor cursor' : nat) (buf : list R) (N k i : nat)
    (part : string) :
  0 < tempo ->
  generate_beat pattern tempo noise cursor = Done (buf, cursor') ->
  length buf = (length pattern * N)%nat ->
  pattern !! k = Some part ->
  (i < N)%nat ->
  (part <> "kick" -> part <> "snare" ->
   buf !! (k * N + i)%nat = Some 0)
  /\ (part = "kick" ->
      buf !! (k * N)%nat = Some 0
      /\ ∀ k', pattern !! k' = Some "kick" ->
               buf !! (k' * N + i)%nat = buf !! (k * N + i)%nat).
Proof.
  intros Ht Hrun Hlen Hk Hi.
  destruct (beat_loop_ok (60 / tempo) noise pattern
              (positive_tempo_count tempo Ht) [] cursor)
    as (slots & Hloop & Hall).
  rewrite generate_beat_unfold in Hrun by lra. rewrite Hloop in Hrun.
  simpl in Hrun. injection Hrun as <- _.
  pose proof (Forall2_slot_lengths _ _ _ _ Hall) as Hlens.
  assert (HN : N = Z.to_nat (py_int (SAMPLE_RATE * (60 / tempo)))).
  { rewrite (length_concat_uniform _ _ Hlens) in Hlen.
    rewrite <- (Forall2_length _ _ _ Hall) in Hlen.
    apply lookup_lt_Some in Hk.
    apply Nat.mul_cancel_l in Hlen; [congruence | lia]. }
  subst N.
  destruct (Forall2_lookup_l _ _ _ _ _ Hall Hk)
    as (s & Hs & Hslen & Hkick & Hzero & _).
  split.
  - intros Hnk Hns. specialize (Hzero Hnk Hns).
    rewrite (lookup_concat_uniform _ slots Hlens k i s Hs Hi).
    destruct (lookup_lt_is_Some_2 s i ltac:(lia)) as [x Hx].
    rewrite Hx. f_equal. rewrite Forall_lookup in Hzero. exact (Hzero i x Hx).
  - intros Hpk. split.
    + replace (k * Z.to_nat (py_int (SAMPLE_RATE * (60 / tempo))))%nat
        with (k * Z.to_nat (py_int (SAMPLE_RATE * (60 / tempo))) + 0)%nat
        by lia.
      rewrite (lookup_concat_uniform _ slots Hlens k 0 s Hs ltac:(lia)).
      rewrite (Hkick Hpk).
      rewrite list_lookup_fmap, lookup_seq_lt by lia. simpl. f_equal.
      replace (2 * math_pi * 60 * (0 * ((60 / tempo - 0)
                 / IZR (py_int (SAMPLE_RATE * (60 / tempo)))) + 0))
        with 0 by ring.
      rewrite sin_0. ring.
    + intros k' Hk'.
      destruct (Forall2_lookup_l _ _ _ _ _ Hall Hk')
        as (s' & Hs' & _ & Hkick' & _).
      rewrite (lookup_concat_uniform _ slots Hlens k' i s' Hs' Hi).
      rewrite (lookup_concat_uniform _ slots Hlens k i s Hs Hi).
      rewrite (Hkick Hpk), (Hkick' eq_refl). reflexivity.
Qed.

Lemma generate_beat_slots_witness :
  ∃ slots cursor',
    generate_beat ["kick"; "rest"] 120 (fun _ => 0) 0
      = Done (concat slots, cursor')
    /\ concat slots
         !! (1 * Z.to_nat (py_int (SAMPLE_RATE * (60 / 120))) + 7)%nat
       = Some 0.
Proof.
  assert (Ht : 0 < 120) by lra.
  destruct (generate_beat_run ["kick"; "rest"] 120 (fun _ => 0) 0 Ht)
    as (slots & Hrun & Hlen & Hall & _).
  eexists. eexists. split; [exact Hrun|].
  assert (Hn : py_int (SAMPLE_RATE * (60 / 120)) = 22050%Z).
  { apply py_int_floor; unfold SAMPLE_RATE; lra. }
  apply (generate_beat_slots ["kick"; "rest"] 120 (fun _ => 0) 0 _
           (concat slots) _ 1 7 "rest" Ht Hrun).
  - rewrite (length_concat_uniform _ _ Hall), Hlen. reflexivity.
  - reflexivity.
  - rewrite Hn. lia.
  - discriminate.
  - discriminate.
Defined.

(** X21: the failures of [generate_beat].  A tempo of 0 raises
    [ZeroDivisionError] even for an empty pattern; an empty pattern
    otherwise gives the empty buffer; a tempo from -2,646,000 up to, but not
    including, 0 makes the first slot raise [ValueError]; and beyond
    2,646,000 beats per minute in either direction every slot is empty. *)
Theorem generate_beat_edges (pattern : list string) (tempo : R)
    (noise : nat -> R) (cursor : nat) :
  (tempo = 0 ->
   generate_beat pattern tempo noise cursor = Failed ZeroDivisionError)
  /\ (tempo <> 0 ->
      generate_beat [] tempo noise cursor = Done ([], cursor))
  /\ (-2646000 <= tempo < 0 -> pattern <> [] ->
      generate_beat pattern tempo noise cursor = Failed (Builtin ValueError))
  /\ (tempo < -2646000 \/ 2646000 < tempo ->
      generate_beat pattern tempo noise cursor = Done ([], cursor)).
Proof.
  split; [|split; [|split]].
  - intros ->. unfold generate_beat.
    destruct (Req_dec_T 0 0) as [_|H]; [reflexivity | contradiction].
  - intros Ht. rewrite generate_beat_unfold by exact Ht. reflexivity.
  - intros [Hlo Hhi] Hne. rewrite generate_beat_unfold by lra.
    destruct pattern as [|part rest]; [contradiction|].
    rewrite beat_loop_raises; [reflexivity|].
    assert (Hinv : / tempo < 0) by (apply Rinv_lt_0_compat; exact Hhi).
    assert (Hone : tempo * / tempo = 1) by (apply Rinv_r; lra).
    assert (Hprod : SAMPLE_RATE * (60 / tempo) <= -1).
    { unfold SAMPLE_RATE, Rdiv. nra. }
    destruct (Z.lt_ge_cases (py_int (SAMPLE_RATE * (60 / tempo))) 0)
      as [Hlt|Hge]; [exact Hlt|].
    apply py_int_sign in Hge. lra.
  - intros Hfar.
    assert (Ht : tempo <> 0) by lra.
    assert (Hone : tempo * / tempo = 1) by (apply Rinv_r; exact Ht).
    assert (Hprod : -1 < SAMPLE_RATE * (60 / tempo) < 1).
    { unfold SAMPLE_RATE, Rdiv. destruct Hfar as [Hneg|Hpos].
      - assert (Hinv : / tempo < 0) by (apply Rinv_lt_0_compat; lra).
        split; nra.
      - assert (Hinv : 0 < / tempo) by (apply Rinv_0_lt_compat; lra).
        split; nra. }
    assert (Hn : py_int (SAMPLE_RATE * (60 / tempo)) = 0%Z).
    { destruct (Rle_dec 0 (SAMPLE_RATE * (60 / tempo))) as [H0|H0].
      - apply py_int_floor; lra.
      - apply py_int_ceil; lra. }
    destruct (beat_loop_ok (60 / tempo) noise pattern ltac:(lia) [] cursor)
      as (slots & Hrun & Hall).
    rewrite generate_beat_unfold by exact Ht. rewrite Hrun, Hn. simpl.
    rewrite Nat.add_0_r. do 2 f_equal.
    apply Forall2_slot_lengths in Hall. rewrite Hn in Hall. simpl in Hall.
    clear Hrun. induction Hall as [|s slots' Hs _ IH]; [reflexivity|].
    simpl. rewrite IH. destruct s; [reflexivity | discriminate].
Qed.

Lemma generate_beat_edges_witness :
  -2646000 <= -100 < 0
  /\ ["kick"] <> []
  /\ generate_beat ["kick"] (-100) (fun _ => 0) 0
     = Failed (Builtin ValueError).
Proof.
  assert (Ht : -2646000 <= -100 < 0) by lra.
  assert (Hne : ["kick"] <> []) by discriminate.
  split; [exact Ht|]. split; [exact Hne|].
  exact (proj1 (proj2 (proj2 (generate_beat_edges ["kick"] (-100)
                                (fun _ => 0) 0))) Ht Hne).
Defined.

(** X22: beats compose: rendering a pattern and then a second pattern from
    the noise position the first one reached gives the two halves of the
    buffer of the concatenated pattern. *)
Theorem generate_beat_app (p1 p2 : list string) (tempo : R)
    (noise : nat -> R) (c c1 c2 : nat) (b1 b2 : list R) :
  generate_beat p1 tempo noise c = Done (b1, c1) ->
  generate_beat p2 tempo noise c1 = Done (b2, c2) ->
  generate_beat (p1 ++ p2) tempo noise c = Done (b1 ++ b2, c2).
Proof.
  unfold generate_beat.
  destruct (Req_dec_T tempo 0) as [_|_]; [discriminate|].
  intros H1 H2. rewrite beat_loop_app.
  destruct (beat_loop p1 (60.0 / tempo) noise [] c) as [[o1 k1]|e1];
    [|discriminate].
  injection H1 as -> ->.
  rewrite beat_loop_acc.
  destruct (beat_loop p2 (60.0 / tempo) noise [] c1) as [[o2 k2]|e2];
    [|discriminate].
  injection H2 as -> ->. reflexivity.
Qed.

Lemma generate_beat_app_witness :
  ∃ b1 c1 b2 c2,
    generate_beat ["kick"] 100 (fun _ => 0) 0 = Done (b1, c1)
    /\ generate_beat ["snare"; "kick"] 100 (fun _ => 0) c1 = Done (b2, c2)
    /\ generate_beat (["kick"] ++ ["snare"; "kick"]) 100 (fun _ => 0) 0
       = Done (b1 ++ b2, c2).
Proof.
  assert (Ht : 0 < 100) by lra.
  destruct (generate_beat_run ["kick"] 100 (fun _ => 0) 0 Ht)
    as (b1 & H1 & _).
  match type of H1 with
  | _ = Done (_, ?c1) =>
      destruct (generate_beat_run ["snare"; "kick"] 100 (fun _ => 0) c1 Ht)
        as (b2 & H2 & _)
  end.
  do 4 eexists. split; [exact H1|]. split; [exact H2|].
  exact (generate_beat_app _ _ _ _ _ _ _ _ _ H1 H2).
Defined.

End BeatClaims.
